(** * confusing: the structural decoder, its key normalizers and its sources

    A shallow embedding of the Go package [confusing] (normalizer.go,
    util.go, source.go, map.go, env.go) and the properties of its
    specification.

    Conventions of the embedding.
    - A Go [string] is a [string] of bytes.  [strings.ToLower],
      [strings.ToUpper], [unicode.ToLower] and [strings.TrimSpace] act on
      the ASCII characters and leave every other byte as it is.
    - A pure function that can panic returns [option]: [None] is the
      panic.  A Go pair [(T, error)] is a [result]: [Ok v], [Err e], or
      [Panic].
    - The values [reflect] handles are explicit: a [type] for a
      [reflect.Type], a [value] for the [reflect.Value] of a source, a
      [Ptr] into a [Store] for the [reflect.Value] of a target.  The
      store holds the destination cells, the destination maps, which are
      shared by reference, and the [keyInitialized] variables the
      closures of the queue capture.
    - The two decoding loops take fuel; a result [None] means that the
      fuel ran out before the loop ended.
    - The mutable registry [sourceConventions] and the process environment
      are fields of a [World]; the functions of the standard library the
      decoder calls ([strconv.Atoi], [strconv.ParseFloat], the JSON
      parser) are fields of it too.  A [ReadConfig] method is user code:
      a function of the declarations [Decls]. *)

From Stdlib Require Import ZArith Lia Ascii String List Bool SpecFloat.
From stdpp Require Import base option list gmap strings.

Set Warnings "-register-all".

Open Scope Z_scope.
Open Scope nat_scope.
Open Scope stdpp_scope.

(** ** Strings (package [strings], [unicode], [regexp]) *)

Module Str.

Definition is_upper (c : ascii) : bool :=
  (65 <=? nat_of_ascii c) && (nat_of_ascii c <=? 90).

Definition is_lower (c : ascii) : bool :=
  (97 <=? nat_of_ascii c) && (nat_of_ascii c <=? 122).

Definition is_digit (c : ascii) : bool :=
  (48 <=? nat_of_ascii c) && (nat_of_ascii c <=? 57).

(** [unicode.ToLower] and [unicode.ToUpper] on one character. *)
Definition to_lower (c : ascii) : ascii :=
  if is_upper c then ascii_of_nat (nat_of_ascii c + 32) else c.

Definition to_upper (c : ascii) : ascii :=
  if is_lower c then ascii_of_nat (nat_of_ascii c - 32) else c.

Fixpoint map (f : ascii -> ascii) (s : string) : string :=
  match s with
  | EmptyString => EmptyString
  | String c r => String (f c) (map f r)
  end.

Definition ToLower : string -> string := map to_lower.
Definition ToUpper : string -> string := map to_upper.

(** [strings.Split(s, sep)] for a separator of one character: the result
    is never empty, and [Split "" sep] is the list of one empty string. *)
Fixpoint Split (sep : ascii) (s : string) : list string :=
  match s with
  | EmptyString => [EmptyString]
  | String c r =>
      if Ascii.eqb c sep then EmptyString :: Split sep r
      else match Split sep r with
           | h :: t => String c h :: t
           | [] => [String c EmptyString]
           end
  end.

(** [strings.Join(parts, sep)]. *)
Fixpoint Join (sep : string) (parts : list string) : string :=
  match parts with
  | [] => EmptyString
  | [p] => p
  | p :: rest => p +:+ sep +:+ Join sep rest
  end.

(** The white space [strings.TrimSpace] removes, among the ASCII
    characters: tab, line feed, vertical tab, form feed, carriage return
    and space. *)
Definition is_space (c : ascii) : bool :=
  ((9 <=? nat_of_ascii c) && (nat_of_ascii c <=? 13)) || (nat_of_ascii c =? 32).

Fixpoint trim_left (s : string) : string :=
  match s with
  | EmptyString => EmptyString
  | String c r => if is_space c then trim_left r else s
  end.

Fixpoint rev_onto (s acc : string) : string :=
  match s with
  | EmptyString => acc
  | String c r => rev_onto r (String c acc)
  end.

Definition rev (s : string) : string := rev_onto s EmptyString.

Definition TrimSpace (s : string) : string :=
  rev (trim_left (rev (trim_left s))).

Definition is_empty (s : string) : bool :=
  match s with EmptyString => true | _ => false end.

End Str.

(** ** util.go *)

(** [matchFirstCap = "(.)([A-Z][a-z]+)"] replaced by ["${1}_${2}"].
    The search is leftmost and the matches do not overlap; [in_run] is
    true while the scan is inside the greedy run [[a-z]+] of the match it
    has just emitted.  [.] does not match a line feed. *)
Fixpoint replaceFirstCap (in_run : bool) (s : string) : string :=
  match s with
  | EmptyString => EmptyString
  | String c r =>
      if in_run && Str.is_lower c then String c (replaceFirstCap true r)
      else
        match r with
        | String u (String l r') =>
            if negb (Ascii.eqb c "010") && Str.is_upper u && Str.is_lower l
            then String c (String "_" (String u (String l (replaceFirstCap true r'))))
            else String c (replaceFirstCap false r)
        | _ => String c (replaceFirstCap false r)
        end
  end.

(** [matchAllCap = "([a-z0-9])([A-Z])"] replaced by ["${1}_${2}"]. *)
Fixpoint replaceAllCap (s : string) : string :=
  match s with
  | EmptyString => EmptyString
  | String a r =>
      match r with
      | String b r' =>
          if (Str.is_lower a || Str.is_digit a) && Str.is_upper b
          then String a (String "_" (String b (replaceAllCap r')))
          else String a (replaceAllCap r)
      | EmptyString => String a EmptyString
      end
  end.

Definition camelToSnake (input : string) (ensureLowercase : bool) : string :=
  let input := replaceFirstCap false input in
  let input := replaceAllCap input in
  if ensureLowercase then Str.ToLower input else input.

(** [lcfirst]: [r[0]] of an empty string is an index out of range. *)
Definition lcfirst (s : string) : option string :=
  match s with
  | EmptyString => None
  | String c r => Some (String (Str.to_lower c) r)
  end.

Definition concatenateKeys (keys : list string) : string := Str.Join "." keys.

Definition stringOrDefault (key defaultValue : string) : string :=
  if Str.is_empty key then defaultValue else key.

(** ** Errors *)

Inductive error : Type :=
  | InvalidBooleanError
  | UnknownConventionError (Convention : string)
  | TargetNotPointerError      (* "target must be a non-nil pointer" *)
  | TargetNotStructError       (* "target must be a struct" *)
  | UnsupportedTargetTypeError (* "unsupported target type" *)
  | AtoiError (input : string)
  | ParseFloatError (input : string)
  | JSONError (input : string)
  | ReaderError (msg : string).

Inductive result (A : Type) : Type :=
  | Ok (a : A)
  | Err (e : error)
  | Panic.
Arguments Ok {A} a.
Arguments Err {A} e.
Arguments Panic {A}.

Definition parseBool (val : string) : result bool :=
  let v := Str.ToLower val in
  if String.eqb v "1" || String.eqb v "yes" || String.eqb v "on" then Ok true
  else if String.eqb v "0" || String.eqb v "no" || String.eqb v "off" then Ok false
  else Err InvalidBooleanError.

(** ** normalizer.go *)

Inductive KeyNormalizer : Type :=
  | SnakeCaseNormalizer
  | UpperSnakeCaseNormalizer
  | CamelCaseNormalizer.

Definition SnakeCaseConvention : string := "snake".
Definition CamelCaseConvention : string := "camel".
Definition UpperSnakeCaseConvention : string := "upper_snake".

(** [for i, part := range parts { parts[i] = lcfirst(part) }]: the first
    empty part panics. *)
Fixpoint lcfirst_all (parts : list string) : option (list string) :=
  match parts with
  | [] => Some []
  | p :: rest =>
      match lcfirst p with
      | None => None
      | Some p' =>
          match lcfirst_all rest with
          | None => None
          | Some rest' => Some (p' :: rest')
          end
      end
  end.

Definition Normalize (n : KeyNormalizer) (key : string) : option string :=
  match n with
  | SnakeCaseNormalizer => Some (camelToSnake key true)
  | UpperSnakeCaseNormalizer =>
      let parts := Str.Split "." key in
      let parts := List.map (fun part => Str.ToUpper (camelToSnake part false)) parts in
      Some (Str.Join "_" parts)
  | CamelCaseNormalizer =>
      match lcfirst_all (Str.Split "." key) with
      | None => None
      | Some parts => Some (Str.Join "." parts)
      end
  end.

(** [GetNormalizer]: the registry [normalizers] is never written after
    its initialisation. *)
Definition normalizers : gmap string KeyNormalizer :=
  <[SnakeCaseConvention := SnakeCaseNormalizer]>
  (<[CamelCaseConvention := CamelCaseNormalizer]>
  (<[UpperSnakeCaseConvention := UpperSnakeCaseNormalizer]> ∅)).

Definition GetNormalizer (convention : string) : option KeyNormalizer :=
  normalizers !! convention.

Definition SourceType : Type := string.
Definition EnvSourceType : SourceType := "env".
Definition YAMLSourceType : SourceType := "yaml".
Definition JSONSourceType : SourceType := "json".

(** The initial value of the package variable [sourceConventions]. *)
Definition defaultSourceConventions : gmap string string :=
  <[EnvSourceType := UpperSnakeCaseConvention]>
  (<[YAMLSourceType := SnakeCaseConvention]>
  (<[JSONSourceType := CamelCaseConvention]> ∅)).

(** ** The data model *)

(** The Go types of decode targets: [bool], [int], [float64], [string],
    [interface{}], pointers, slices, maps, declared struct types, and
    [TFunc] for the kinds the decoder has no case for. *)
Inductive type : Type :=
  | TBool
  | TInt
  | TFloat64
  | TString
  | TInterface
  | TPtr (elem : type)
  | TSlice (elem : type)
  | TMap (key elem : type)
  | TStruct (name : string)
  | TFunc.

(** The generic tree of a parsed document, also read as a
    [reflect.Value]: [VNil] is the nil interface, whose [reflect.Value]
    has kind [Invalid].  [VSlice] is a [[]interface{}], [VMap] a
    [map[string]interface{}] in the order its iterator yields the
    entries; [VNilMapAny] is the nil [map[interface{}]interface{}]. *)
Inductive value : Type :=
  | VNil
  | VBool (b : bool)
  | VInt (z : Z)
  | VFloat (f : spec_float)
  | VString (s : string)
  | VSlice (l : list value)
  | VMap (m : list (string * value))
  | VNilMapAny.

(** A destination slot is a cell of the store and a path of field or
    element indices into it. *)
Record loc : Type := Loc { cell : nat; path : list nat }.

(** Destination values.  [DZero] is the zero value of the slot's type: a
    slot that was never written holds it.  A slice is its backing cell
    and its length, a map is the index of its map object. *)
Inductive dval : Type :=
  | DZero
  | DBool (b : bool)
  | DInt (z : Z)
  | DFloat (f : spec_float)
  | DString (s : string)
  | DAny (v : value)
  | DPtr (p : loc)
  | DSlice (backing len : nat)
  | DMap (object : nat)
  | DStruct (fs : list dval)
  | DArray (es : list dval).

(** A map object is the sequence of its [SetMapIndex] calls, the latest
    first. *)
Record Store : Type := mkStore {
  cells : list dval;
  maps : list (list (dval * dval));
  flags : list bool
}.

(** Reading and writing below a cell.  A struct that was never written
    is [DZero] and grows to the field that is written; the elements of a
    backing array are there from its allocation, and every element
    index the decoders form is within it. *)
Definition pad (n : nat) (fs : list dval) : list dval :=
  fs ++ replicate (n - length fs) DZero.

Fixpoint dget (p : list nat) (d : dval) : dval :=
  match p with
  | [] => d
  | i :: p' =>
      match d with
      | DStruct fs | DArray fs => dget p' (nth i fs DZero)
      | _ => DZero
      end
  end.

Fixpoint dset (p : list nat) (v : dval) (d : dval) : dval :=
  match p with
  | [] => v
  | i :: p' =>
      match d with
      | DArray es => DArray (<[i := dset p' v (nth i es DZero)]> es)
      | DStruct fs =>
          let fs' := pad (S i) fs in
          DStruct (<[i := dset p' v (nth i fs' DZero)]> fs')
      | _ =>
          let fs' := pad (S i) [] in
          DStruct (<[i := dset p' v DZero]> fs')
      end
  end.

Definition load (l : loc) (st : Store) : dval :=
  match cells st !! cell l with
  | Some d => dget (path l) d
  | None => DZero
  end.

Definition store (l : loc) (v : dval) (st : Store) : Store :=
  mkStore (alter (dset (path l) v) (cell l) (cells st)) (maps st) (flags st).

(** [reflect.New(T)] and the backing array of [reflect.MakeSlice]. *)
Definition newCell (d : dval) (st : Store) : nat * Store :=
  (length (cells st), mkStore (cells st ++ [d]) (maps st) (flags st)).

(** [reflect.MakeMap]. *)
Definition newMapObject (st : Store) : nat * Store :=
  (length (maps st), mkStore (cells st) (maps st ++ [[]]) (flags st)).

(** A local [keyInitialized := false] captured by two closures. *)
Definition newFlag (st : Store) : nat * Store :=
  (length (flags st), mkStore (cells st) (maps st) (flags st ++ [false])).

Definition setFlag (f : nat) (st : Store) : Store :=
  mkStore (cells st) (maps st) (<[f := true]> (flags st)).

Definition getFlag (f : nat) (st : Store) : bool :=
  match flags st !! f with Some b => b | None => false end.

Definition SetMapIndex (m : nat) (k v : dval) (st : Store) : Store :=
  mkStore (cells st) (alter (cons (k, v)) m (maps st)) (flags st).

(** A [reflect.Value] of pointer kind: where it points, the type of what
    it points to, and whether it was obtained through an unexported
    embedded field ([flagRO]): [Set], [SetBool], ... and [Interface]
    panic on such a value. *)
Record Ptr : Type := mkPtr { addr : loc; elemType : type; readOnly : bool }.

(** The [target interface{}] argument of [Read] and [ReadKey]. *)
Inductive Target : Type :=
  | NotAPointer
  | NilPointer
  | Pointer (p : Ptr).

(** ** Sources and custom readers *)

Record MapSource : Type := mkMapSource {
  typ : SourceType;
  data : list (string * value);
  normalizer : option KeyNormalizer   (* [None] is the nil interface *)
}.

Record EnvSource : Type := mkEnvSource {
  env_normalizer : KeyNormalizer
}.

(** The values of the interface [Source] the package builds. *)
Inductive Source : Type :=
  | OfMapSource (s : MapSource)
  | OfEnvSource (s : EnvSource)
  | PrefixSourceWith (prefix : string) (source : Source).

(** [ReadConfig] of a type that implements [Reader]: user code, taken as
    a function of the source it is given, its receiver and the store; it
    returns the store it leaves and its error. *)
Definition ReadConfigFn : Type := Source -> loc -> Store -> Store * option error.

Record StructField : Type := mkField {
  Name : string;
  Tag : string;          (* [field.Tag.Get("config")] *)
  Anonymous : bool;
  Type_ : type
}.

Record StructDecl : Type := mkStruct {
  fields : list StructField;
  ReadConfig : option ReadConfigFn
}.

Abbreviation Decls := (gmap string StructDecl).

Definition declOf (D : Decls) (name : string) : StructDecl :=
  match D !! name with
  | Some d => d
  | None => mkStruct [] None
  end.

(** What the decoder uses of the process and of the standard library. *)
Record World : Type := mkWorld {
  environ : gmap string string;
  sourceConventions : gmap string string;
  Atoi : string -> option Z;
  ParseFloat : string -> option spec_float;
  (** [json.Unmarshal] into an [interface{}]; [None] is a syntax error. *)
  jsonDecode : string -> option value;
  (** the conversions [int(f)] and [string(rune(i))] of [Value.Convert] *)
  floatToInt : spec_float -> Z;
  runeString : Z -> string
}.

Definition Getenv (W : World) (key : string) : string :=
  match environ W !! key with
  | Some v => v
  | None => EmptyString
  end.

Definition GetConventionForSourceType (W : World) (sourceType : SourceType) : string :=
  let convention :=
    match sourceConventions W !! sourceType with
    | Some c => c
    | None => EmptyString
    end in
  let conventionEnvVar := Str.ToUpper sourceType +:+ "_CONVENTION" in
  stringOrDefault (Getenv W conventionEnvVar) convention.

Definition NormalizerForSourceType (W : World) (convention : string)
    (sourceType : SourceType) : result KeyNormalizer :=
  let convention :=
    if negb (Str.is_empty convention) then convention
    else GetConventionForSourceType W sourceType in
  match GetNormalizer convention with
  | None => Err (UnknownConventionError convention)
  | Some n => Ok n
  end.

Definition NewYAMLSource (W : World) (data : list (string * value))
    (convention : string) : result MapSource :=
  match NormalizerForSourceType W convention YAMLSourceType with
  | Ok n => Ok (mkMapSource YAMLSourceType data (Some n))
  | Err e => Err e
  | Panic => Panic
  end.

Definition NewJSONSource (W : World) (data : list (string * value))
    (convention : string) : result MapSource :=
  match NormalizerForSourceType W convention JSONSourceType with
  | Ok n => Ok (mkMapSource JSONSourceType data (Some n))
  | Err e => Err e
  | Panic => Panic
  end.

Definition NewEnvSource (W : World) (convention : string) : result EnvSource :=
  match NormalizerForSourceType W convention EnvSourceType with
  | Ok n => Ok (mkEnvSource n)
  | Err e => Err e
  | Panic => Panic
  end.

(** ** util.go: [processStructField] *)

Definition IsExported (field : StructField) : bool :=
  match Name field with
  | String c _ => Str.is_upper c
  | EmptyString => false
  end.

Definition isStruct (t : type) : bool :=
  match t with TStruct _ => true | _ => false end.

Definition processStructField (field : StructField) : string :=
  let key := Tag field in
  if String.eqb key "-" then EmptyString
  else
    let named := if Str.is_empty key then Name field else key in
    if Anonymous field then
      let t := match Type_ field with TPtr e => e | t => t end in
      if negb (isStruct t) then EmptyString else named
    else if negb (IsExported field) then EmptyString
    else named.

(** ** map.go *)

(** The three closures the decoder stores in a queue item: none, the one
    that sets [keyInitialized], and the one that commits the entry. *)
Inductive callbackFunc : Type :=
  | cbNil
  | cbKey (keyInitialized : nat)
  | cbValue (keyInitialized : nat) (newMap : nat) (newKeyPtr newValuePtr : loc).

Record mapQueueItem : Type := mkMapItem {
  source : value;
  target : Ptr;
  callback : callbackFunc
}.

Definition complete (cb : callbackFunc) (st : Store) : Store :=
  match cb with
  | cbNil => st
  | cbKey f => setFlag f st
  | cbValue f m kp vp =>
      if getFlag f st then SetMapIndex m (load kp st) (load vp st) st else st
  end.

(** [m[part]]: the nil interface when the key is missing. *)
Fixpoint mapIndex (m : list (string * value)) (part : string) : value :=
  match m with
  | [] => VNil
  | (k, v) :: rest => if String.eqb k part then v else mapIndex rest part
  end.

(** The loop of [getKeyFromMap] over the parts of the key. *)
Fixpoint walk (parts : list string) (v : value) : value :=
  match parts with
  | [] => v
  | part :: rest =>
      match v with
      | VMap m => walk rest (mapIndex m part)
      | _ => VNil
      end
  end.

(** [None] is a panic: the nil normalizer of a source built without one,
    or [lcfirst] on an empty part. *)
Definition getKeyFromMap (s : MapSource) (rootMap : list (string * value))
    (key : string) : option value :=
  if Str.is_empty key then Some (VMap rootMap)
  else
    match normalizer s with
    | None => None
    | Some n =>
        match Normalize n key with
        | None => None
        | Some key' => Some (walk (Str.Split "." key') (VMap rootMap))
        end
    end.

(** The loop that follows a pointer target to the deepest pointer,
    allocating what each level points to. *)
Fixpoint unwrap (t : type) (tgt : loc) (st : Store) : loc * type * Store :=
  match t with
  | TPtr e =>
      let '(c, st1) := newCell DZero st in
      let elemPtr := Loc c [] in
      unwrap e elemPtr (store tgt (DPtr elemPtr) st1)
  | _ => (tgt, t, st)
  end.

(** [Value.Convert] where [Type.ConvertibleTo] holds, for a source that
    is not the nil interface. *)
Definition convert (W : World) (v : value) (t : type) : option dval :=
  match v, t with
  | VNil, _ => None
  | _, TInterface => Some (DAny v)
  | VBool b, TBool => Some (DBool b)
  | VInt z, TInt => Some (DInt z)
  | VInt z, TFloat64 => Some (DFloat (binary_normalize 53 1024 z 0 false))
  | VInt z, TString => Some (DString (runeString W z))
  | VFloat f, TInt => Some (DInt (floatToInt W f))
  | VFloat f, TFloat64 => Some (DFloat f)
  | VString s, TString => Some (DString s)
  | VSlice _, TSlice TInterface => Some (DAny v)
  | VMap _, TMap TString TInterface => Some (DAny v)
  | VNilMapAny, TMap TInterface TInterface => Some (DAny v)
  | _, _ => None
  end.

(** What one iteration of a decoding loop does: it goes on with the
    items it appended to the queue, it returns an error, or it panics. *)
Inductive iteration (Item : Type) : Type :=
  | Continue (children : list Item) (st : Store)
  | ReturnErr (e : error) (st : Store)
  | IterPanic.
Arguments Continue {Item} children st.
Arguments ReturnErr {Item} e st.
Arguments IterPanic {Item}.

Definition sliceItems (elemT : type) (backing : nat) (l : list value)
    : list mapQueueItem :=
  imap (fun i v => mkMapItem v (mkPtr (Loc backing [i]) elemT false) cbNil) l.

(** The body of [for iter.Next()]: per entry a flag, a key cell, a value
    cell, and the key item before the value item. *)
Fixpoint entryItems (keyType valueType : type) (newMap : nat)
    (entries : list (string * value)) (st : Store)
    : list mapQueueItem * Store :=
  match entries with
  | [] => ([], st)
  | (k, v) :: rest =>
      let '(f, st1) := newFlag st in
      let '(kc, st2) := newCell DZero st1 in
      let '(vc, st3) := newCell DZero st2 in
      let newKeyPtr := Loc kc [] in
      let newValuePtr := Loc vc [] in
      let '(items, st4) := entryItems keyType valueType newMap rest st3 in
      (mkMapItem (VString k) (mkPtr newKeyPtr keyType false) (cbKey f)
       :: mkMapItem v (mkPtr newValuePtr valueType false)
            (cbValue f newMap newKeyPtr newValuePtr)
       :: items, st4)
  end.

Definition fieldAddr (tgt : loc) (i : nat) : loc :=
  Loc (cell tgt) (path tgt ++ [i]).

(** [Value.Field(i).Addr()]: read-only for an unexported field. *)
Definition fieldPtr (tgt : loc) (i : nat) (field : StructField) : Ptr :=
  mkPtr (fieldAddr tgt i) (Type_ field) (negb (IsExported field)).

(** The loop over the fields of a struct target; [None] is the panic of
    [getKeyFromMap]. *)
Fixpoint fieldItems (s : MapSource) (m : list (string * value)) (tgt : loc)
    (fs : list StructField) (i : nat) : option (list mapQueueItem) :=
  match fs with
  | [] => Some []
  | field :: rest =>
      let childKey := processStructField field in
      if Str.is_empty childKey then fieldItems s m tgt rest (S i)
      else
        match getKeyFromMap s m childKey with
        | None => None
        | Some childSourceValue =>
            match fieldItems s m tgt rest (S i) with
            | None => None
            | Some items =>
                match childSourceValue with
                | VNil => Some items
                | _ => Some (mkMapItem childSourceValue (fieldPtr tgt i field) cbNil
                             :: items)
                end
            end
        end
  end.

(** The pointer loop of an iteration: setting a read-only pointer
    panics; what the loop allocates is writable. *)
Definition unwrapTarget (p : Ptr) (st : Store) : option (Ptr * Store) :=
  match elemType p with
  | TPtr _ =>
      if readOnly p then None
      else
        let '(tgt, t, st') := unwrap (elemType p) (addr p) st in
        Some (mkPtr tgt t false, st')
  | _ => Some (p, st)
  end.

(** [p.Elem().Set(d)] and the like, followed by what the iteration does
    next. *)
Definition assign {Item : Type} (p : Ptr) (d : dval) (st : Store)
    (k : Store -> iteration Item) : iteration Item :=
  if readOnly p then IterPanic else k (store (addr p) d st).

(** One iteration of the loop of [readMapPrimitive]. *)
Definition mapStep (W : World) (D : Decls) (s : MapSource)
    (item : mapQueueItem) (st : Store) : iteration mapQueueItem :=
  match source item with
  | VNil => Continue [] st
  | src =>
      match unwrapTarget (target item) st with
      | None => IterPanic
      | Some (tgt, st) =>
          let done := fun st' => Continue [] (complete (callback item) st') in
          match convert W src (elemType tgt) with
          | Some d => assign tgt d st done
          | None =>
              match elemType tgt with
              | TBool =>
                  match src with
                  | VString str =>
                      match parseBool str with
                      | Ok valueBool => assign tgt (DBool valueBool) st done
                      | _ => Continue [] st
                      end
                  | VFloat f => assign tgt (DBool (SFltb (S754_zero false) f)) st done
                  | _ => Continue [] st
                  end
              | TSlice elemT =>
                  match src with
                  | VSlice l =>
                      let '(backing, st1) :=
                        newCell (DArray (replicate (length l) DZero)) st in
                      assign tgt (DSlice backing (length l)) st1 (fun st2 =>
                        Continue (sliceItems elemT backing l)
                                 (complete (callback item) st2))
                  | _ => Continue [] st
                  end
              | TMap keyType valueType =>
                  let entries :=
                    match src with
                    | VMap m => Some m
                    | VNilMapAny => Some []
                    | _ => None
                    end in
                  match entries with
                  | Some m =>
                      let '(newMap, st1) := newMapObject st in
                      let '(items, st2) := entryItems keyType valueType newMap m st1 in
                      assign tgt (DMap newMap) st2 (fun st3 =>
                        Continue items (complete (callback item) st3))
                  | None => Continue [] st
                  end
              | TStruct name =>
                  match src with
                  | VMap m =>
                      if readOnly tgt then IterPanic
                      else
                        match ReadConfig (declOf D name) with
                        | Some reader =>
                            match reader (OfMapSource (mkMapSource (typ s) m None))
                                    (addr tgt) st with
                            | (st1, Some err) => ReturnErr err st1
                            | (st1, None) => done st1
                            end
                        | None =>
                            match fieldItems s m (addr tgt)
                                    (fields (declOf D name)) 0 with
                            | None => IterPanic
                            | Some items =>
                                Continue items (complete (callback item) st)
                            end
                        end
                  | _ => Continue [] st
                  end
              | _ => Continue [] st
              end
          end
      end
  end.

(** What a call returns: its error ([None] is nil) and the store it
    leaves, or a panic. *)
Inductive outcome : Type :=
  | Returns (err : option error) (st : Store)
  | Panics.

(** [for len(queue) > 0]; the result is [None] when [fuel] iterations
    did not empty the queue. *)
Fixpoint readMapPrimitiveLoop (fuel : nat) (W : World) (D : Decls) (s : MapSource)
    (queue : list mapQueueItem) (st : Store) : option outcome :=
  match fuel with
  | 0 => None
  | S fuel' =>
      match queue with
      | [] => Some (Returns None st)
      | item :: queue' =>
          match mapStep W D s item st with
          | Continue children st' =>
              readMapPrimitiveLoop fuel' W D s (queue' ++ children) st'
          | ReturnErr e st' => Some (Returns (Some e) st')
          | IterPanic => Some Panics
          end
      end
  end.

(** The most fields a declared struct has, and a weight of the source
    tree that bounds the iterations of the loop. *)
Definition maxFields (D : Decls) : nat :=
  max_list (List.map (fun entry => length (fields (snd entry))) (map_to_list D)).

Fixpoint weight (B : nat) (v : value) : nat :=
  match v with
  | VSlice l =>
      S ((fix sum (l : list value) : nat :=
            match l with
            | [] => 0
            | x :: r => weight B x + sum r
            end) l)
  | VMap m =>
      S (B * (fix sum (m : list (string * value)) : nat :=
                match m with
                | [] => 0
                | (_, x) :: r => weight B x + sum r
                end) m)
  | _ => 1
  end.

Definition branching (D : Decls) : nat := Nat.max 2 (maxFields D).

(** [readMapPrimitive]: the loop on the queue of the root item.  The
    weight of the root source bounds the iterations of the loop
    ([mapLoop_terminates]), and more fuel does not change what it
    returns ([mapLoop_fuel_mono]). *)
Definition readMapPrimitive (W : World) (D : Decls) (s : MapSource)
    (rootSourceValue : value) (rootTargetValue : Ptr) (st : Store) : option outcome :=
  readMapPrimitiveLoop (S (weight (branching D) rootSourceValue)) W D s
    [mkMapItem rootSourceValue rootTargetValue cbNil] st.

Definition MapSource_ReadKey (W : World) (D : Decls) (s : MapSource)
    (key : string) (tgt : Target) (st : Store) : option outcome :=
  match tgt with
  | Pointer p =>
      match getKeyFromMap s (data s) key with
      | None => Some Panics
      | Some val => readMapPrimitive W D s val p st
      end
  | _ => Some (Returns (Some TargetNotPointerError) st)
  end.

Definition MapSource_Read (W : World) (D : Decls) (s : MapSource)
    (tgt : Target) (st : Store) : option outcome :=
  match tgt with
  | Pointer p =>
      if isStruct (elemType p) then readMapPrimitive W D s (VMap (data s)) p st
      else Some (Returns (Some TargetNotStructError) st)
  | _ => Some (Returns (Some TargetNotPointerError) st)
  end.

(** ** env.go *)

Record envQueueItem : Type := mkEnvItem {
  key : string;
  envTarget : Ptr
}.

(** [None] is the panic of [Normalize]. *)
Definition readEnvKey (W : World) (s : EnvSource) (key : string) : option string :=
  match Normalize (env_normalizer s) key with
  | None => None
  | Some key' => Some (Getenv W key')
  end.

(** [json.Unmarshal] into a [map[interface{}]interface{}]: the package
    [encoding/json] decodes an object only into a map whose key type is
    a string, an integer or a [TextUnmarshaler]; for this type it
    reports [UnmarshalTypeError].  The JSON [null] sets the map to nil
    without an error. *)
Definition unmarshalMapAny (W : World) (text : string) : result value :=
  match jsonDecode W text with
  | Some VNil => Ok VNilMapAny
  | _ => Err (JSONError text)
  end.

(** [json.Unmarshal] into a [[]interface{}]: an array, or [null] for the
    nil slice. *)
Definition unmarshalSlice (W : World) (text : string) : result value :=
  match jsonDecode W text with
  | Some VNil => Ok (VSlice [])
  | Some (VSlice l) => Ok (VSlice l)
  | _ => Err (JSONError text)
  end.

Definition setElem (p : Ptr) (d : dval) (st : Store) : option outcome :=
  if readOnly p then Some Panics else Some (Returns None (store (addr p) d st)).

Definition readEnvPrimitive (W : World) (D : Decls) (val : string)
    (targetValue : Ptr) (st : Store) : option outcome :=
  match elemType targetValue with
  | TString => setElem targetValue (DString val) st
  | TInt =>
      match Atoi W val with
      | None => Some (Returns (Some (AtoiError val)) st)
      | Some valueInt => setElem targetValue (DInt valueInt) st
      end
  | TFloat64 =>
      match ParseFloat W val with
      | None => Some (Returns (Some (ParseFloatError val)) st)
      | Some valueFloat => setElem targetValue (DFloat valueFloat) st
      end
  | TBool =>
      match parseBool val with
      | Ok valueBool => setElem targetValue (DBool valueBool) st
      | Err e => Some (Returns (Some e) st)
      | Panic => Some Panics
      end
  | TMap _ _ =>
      match unmarshalMapAny W val with
      | Ok data =>
          match NewJSONSource W [] EmptyString with
          | Ok source => readMapPrimitive W D source data targetValue st
          | Err e => Some (Returns (Some e) st)
          | Panic => Some Panics
          end
      | Err e => Some (Returns (Some e) st)
      | Panic => Some Panics
      end
  | _ => Some (Returns (Some UnsupportedTargetTypeError) st)
  end.

(** The loop of [readEnvSlice] over the comma-separated pieces: a piece
    that fails to decode leaves the zero value in its element. *)
Fixpoint envSliceElems (W : World) (D : Decls) (elemT : type) (backing : nat)
    (pieces : list string) (i : nat) (st : Store) : option outcome :=
  match pieces with
  | [] => Some (Returns None st)
  | piece :: rest =>
      let piece := Str.TrimSpace piece in
      let '(c, st1) := newCell DZero st in
      let elemPtr := mkPtr (Loc c []) elemT false in
      match readEnvPrimitive W D piece elemPtr st1 with
      | None => None
      | Some Panics => Some Panics
      | Some (Returns err st2) =>
          let st3 :=
            match err with
            | Some _ => store (addr elemPtr) DZero st2
            | None => st2
            end in
          let st4 := store (Loc backing [i]) (load (addr elemPtr) st3) st3 in
          envSliceElems W D elemT backing rest (S i) st4
      end
  end.

(** [readEnvSlice] on a target of type [TSlice elemT]. *)
Definition readEnvSlice (W : World) (D : Decls) (val : string) (elemT : type)
    (targetPtr : Ptr) (st : Store) : option outcome :=
  if negb (Str.is_empty val) then
    match elemT with
    | TStruct _ | TSlice _ =>
        match unmarshalSlice W val with
        | Ok data =>
            match NewJSONSource W [] EmptyString with
            | Ok source => readMapPrimitive W D source data targetPtr st
            | Err e => Some (Returns (Some e) st)
            | Panic => Some Panics
            end
        | Err e => Some (Returns (Some e) st)
        | Panic => Some Panics
        end
    | _ =>
        let valueSlice := Str.Split "," val in
        let valueSliceLen := length valueSlice in
        let '(backing, st1) := newCell (DArray (replicate valueSliceLen DZero)) st in
        match envSliceElems W D elemT backing valueSlice 0 st1 with
        | Some (Returns None st2) =>
            setElem targetPtr (DSlice backing valueSliceLen) st2
        | other => other
        end
    end
  else
    let '(backing, st1) := newCell (DArray []) st in
    setElem targetPtr (DSlice backing 0) st1.

(** The loop of [readKey] over the fields of a struct target. *)
Fixpoint envFieldItems (itemKey : string) (tgt : loc) (fs : list StructField)
    (i : nat) : list envQueueItem :=
  match fs with
  | [] => []
  | field :: rest =>
      let childKey := processStructField field in
      if Str.is_empty childKey then envFieldItems itemKey tgt rest (S i)
      else
        let absoluteKey :=
          if negb (Str.is_empty itemKey) then concatenateKeys [itemKey; childKey]
          else childKey in
        mkEnvItem absoluteKey (fieldPtr tgt i field)
        :: envFieldItems itemKey tgt rest (S i)
  end.

(** One iteration of the loop of [readKey]; [None] when a nested loop
    ran out of fuel. *)
Definition envStep (W : World) (D : Decls) (s : EnvSource)
    (item : envQueueItem) (st : Store) : option (iteration envQueueItem) :=
  match unwrapTarget (envTarget item) st with
  | None => Some IterPanic
  | Some (targetPtr, st) =>
      match elemType targetPtr with
      | TSlice elemT =>
          match readEnvKey W s (key item) with
          | None => Some IterPanic
          | Some raw =>
              match readEnvSlice W D (Str.TrimSpace raw) elemT targetPtr st with
              | None => None
              | Some Panics => Some IterPanic
              | Some (Returns (Some err) st') => Some (ReturnErr err st')
              | Some (Returns None st') => Some (Continue [] st')
              end
          end
      | TStruct name =>
          if readOnly targetPtr then Some IterPanic
          else
            match ReadConfig (declOf D name) with
            | Some reader =>
                match reader (PrefixSourceWith (key item) (OfEnvSource s))
                        (addr targetPtr) st with
                | (st', Some err) => Some (ReturnErr err st')
                | (st', None) => Some (Continue [] st')
                end
            | None =>
                Some (Continue (envFieldItems (key item) (addr targetPtr)
                                  (fields (declOf D name)) 0) st)
            end
      | _ =>
          match readEnvKey W s (key item) with
          | None => Some IterPanic
          | Some raw =>
              match readEnvPrimitive W D raw targetPtr st with
              | None => None
              | Some Panics => Some IterPanic
              | Some (Returns _ st') => Some (Continue [] st')
              end
          end
      end
  end.

(** [for len(queue) > 0] of [readKey]; [None] when [fuel] iterations did
    not empty the queue. *)
Fixpoint readKeyLoop (fuel : nat) (W : World) (D : Decls) (s : EnvSource)
    (queue : list envQueueItem) (st : Store) : option outcome :=
  match fuel with
  | 0 => None
  | S fuel' =>
      match queue with
      | [] => Some (Returns None st)
      | item :: queue' =>
          match envStep W D s item st with
          | None => None
          | Some (Continue children st') =>
              readKeyLoop fuel' W D s (queue' ++ children) st'
          | Some (ReturnErr e st') => Some (Returns (Some e) st')
          | Some IterPanic => Some Panics
          end
      end
  end.

Definition readKey (fuel : nat) (W : World) (D : Decls) (s : EnvSource)
    (rootKey : string) (rootTargetValue : Ptr) (st : Store) : option outcome :=
  readKeyLoop fuel W D s [mkEnvItem rootKey rootTargetValue] st.

Definition EnvSource_ReadKey (fuel : nat) (W : World) (D : Decls) (s : EnvSource)
    (k : string) (tgt : Target) (st : Store) : option outcome :=
  match tgt with
  | Pointer p => readKey fuel W D s k p st
  | _ => Some (Returns (Some TargetNotPointerError) st)
  end.

Definition EnvSource_Read (fuel : nat) (W : World) (D : Decls) (s : EnvSource)
    (tgt : Target) (st : Store) : option outcome :=
  match tgt with
  | Pointer p =>
      if isStruct (elemType p) then readKey fuel W D s EmptyString p st
      else Some (Returns (Some TargetNotStructError) st)
  | _ => Some (Returns (Some TargetNotPointerError) st)
  end.

(** ** source.go: the interface [Source] and [PrefixedSource] *)

Fixpoint Source_ReadKey (fuel : nat) (W : World) (D : Decls) (src : Source)
    (k : string) (tgt : Target) (st : Store) : option outcome :=
  match src with
  | OfMapSource s => MapSource_ReadKey W D s k tgt st
  | OfEnvSource s => EnvSource_ReadKey fuel W D s k tgt st
  | PrefixSourceWith prefix source =>
      Source_ReadKey fuel W D source (prefix +:+ "." +:+ k) tgt st
  end.

Definition Source_Read (fuel : nat) (W : World) (D : Decls) (src : Source)
    (tgt : Target) (st : Store) : option outcome :=
  match src with
  | OfMapSource s => MapSource_Read W D s tgt st
  | OfEnvSource s => EnvSource_Read fuel W D s tgt st
  | PrefixSourceWith prefix source => Source_ReadKey fuel W D source prefix tgt st
  end.

Fixpoint Source_Type (src : Source) : SourceType :=
  match src with
  | OfMapSource s => typ s
  | OfEnvSource _ => EnvSourceType
  | PrefixSourceWith _ source => Source_Type source
  end.

(** ** util.go: [ucfirst], [parseBoolOrDefault] *)



(** ** normalizer.go: [SetConventionForSourceType] *)

Definition SetConventionForSourceType (sourceType : SourceType)
    (convention : string) (W : World) : World :=
  mkWorld (environ W) (<[sourceType := convention]> (sourceConventions W))
    (Atoi W) (ParseFloat W) (jsonDecode W) (floatToInt W) (runeString W).

(** ** Paths ([strings.HasPrefix], [filepath.Ext]) *)

Module Path.

Fixpoint HasPrefix (s prefix : string) : bool :=
  match prefix with
  | EmptyString => true
  | String p prefix' =>
      match s with
      | EmptyString => false
      | String c s' => Ascii.eqb c p && HasPrefix s' prefix'
      end
  end.

Fixpoint hasSeparator (s : string) : bool :=
  match s with
  | EmptyString => false
  | String c r => Ascii.eqb c "/" || hasSeparator r
  end.

(** [filepath.Ext]: the suffix that begins at the last dot of the last
    element of the path, the separator being [/]; empty without a dot. *)
Fixpoint Ext (path : string) : string :=
  match path with
  | EmptyString => EmptyString
  | String c r =>
      match Ext r with
      | EmptyString =>
          if Ascii.eqb c "." && negb (hasSeparator r) then path else EmptyString
      | ext => ext
      end
  end.

End Path.

(** ** confusing.go: the registry of sources and [NewSource] *)

Record SourceOptions : Type := mkSourceOptions {
  FilePath : string;
  Convention : string
}.

Record Options : Type := mkOptions {
  Options_SourceOptions : SourceOptions;
  Options_SourceType : SourceType
}.

(** A [SourceBuilder] runs in the process: it is given the world and
    returns the world it leaves ([godotenv.Load] sets variables) with
    its result. *)
Definition SourceBuilder : Type :=
  SourceOptions -> World -> World * result Source.

(** The three package variables [sources], [sourceTypeByExt] and
    [reverseOrderedSources]. *)
Record Registry : Type := mkRegistry {
  sources : gmap string SourceBuilder;
  sourceTypeByExt : gmap string string;
  reverseOrderedSources : list string
}.

Definition RegisterSource (typ : string) (builder : SourceBuilder)
    (R : Registry) : Registry :=
  mkRegistry (<[typ := builder]> (sources R))
    (<["." +:+ typ := typ]> (sourceTypeByExt R))
    (reverseOrderedSources R ++ [typ]).

(** What the builders use of the host: [os.Open] of a path followed by
    the [Decode] of its YAML or JSON decoder into a
    [map[string]interface{}]; [godotenv.Load] of a path, or of [.env]
    when there is none, with the environment it leaves and its error;
    and [errors.Is(err, os.ErrNotExist)]. *)
Record Host : Type := mkHost {
  openFile : string -> result string;
  yamlDecode : string -> result (list (string * value));
  jsonStreamDecode : string -> result (list (string * value));
  godotenvLoad : option string -> gmap string string
                 -> gmap string string * option error;
  isNotExist : error -> bool
}.

Definition withEnviron (environment : gmap string string) (W : World) : World :=
  mkWorld environment (sourceConventions W)
    (Atoi W) (ParseFloat W) (jsonDecode W) (floatToInt W) (runeString W).

Definition BuildYAMLSource (H : Host) : SourceBuilder :=
  fun opts W =>
    let filePath :=
      if Str.is_empty (FilePath opts) then "config.yaml" else FilePath opts in
    match openFile H filePath with
    | Ok file =>
        match yamlDecode H file with
        | Ok data =>
            match NewYAMLSource W data (Convention opts) with
            | Ok s => (W, Ok (OfMapSource s))
            | Err e => (W, Err e)
            | Panic => (W, Panic)
            end
        | Err e => (W, Err e)
        | Panic => (W, Panic)
        end
    | Err e => (W, Err e)
    | Panic => (W, Panic)
    end.

Definition BuildJSONSource (H : Host) : SourceBuilder :=
  fun opts W =>
    let filePath :=
      if Str.is_empty (FilePath opts) then "config.json" else FilePath opts in
    match openFile H filePath with
    | Ok file =>
        match jsonStreamDecode H file with
        | Ok data =>
            match NewJSONSource W data (Convention opts) with
            | Ok s => (W, Ok (OfMapSource s))
            | Err e => (W, Err e)
            | Panic => (W, Panic)
            end
        | Err e => (W, Err e)
        | Panic => (W, Panic)
        end
    | Err e => (W, Err e)
    | Panic => (W, Panic)
    end.

Definition BuildEnvSource (H : Host) : SourceBuilder :=
  fun opts W =>
    let verifyPath := negb (Str.is_empty (FilePath opts)) in
    let '(environment, err) :=
      godotenvLoad H (if verifyPath then Some (FilePath opts) else None)
        (environ W) in
    let W' := withEnviron environment W in
    let build :=
      match NewEnvSource W' (Convention opts) with
      | Ok s => (W', Ok (OfEnvSource s))
      | Err e => (W', Err e)
      | Panic => (W', Panic)
      end in
    match err with
    | Some e =>
        let isFileExistsErr := isNotExist H e in
        if (isFileExistsErr && verifyPath) || negb isFileExistsErr
        then (W', Err e)
        else build
    | None => build
    end.

Definition defaultRegistry (H : Host) : Registry :=
  mkRegistry
    (<[EnvSourceType := BuildEnvSource H]>
     (<[YAMLSourceType := BuildYAMLSource H]>
     (<[JSONSourceType := BuildJSONSource H]> ∅)))
    (<[".yaml" := YAMLSourceType]>
     (<[".yml" := YAMLSourceType]>
     (<[".json" := JSONSourceType]>
     (<[".env" := EnvSourceType]> ∅))))
    ["env"; "json"; "yaml"].

Definition inferSourceTypeFromFilePath (R : Registry) (filePath : string)
    : SourceType :=
  let typ :=
    if Path.HasPrefix filePath ".env" then
      match sourceTypeByExt R !! ".env" with
      | Some t => t
      | None => EmptyString
      end
    else
      let ext := Path.Ext filePath in
      match sourceTypeByExt R !! ext with
      | Some t => t
      | None => ext
      end in
  match sources R !! typ with
  | Some _ => typ
  | None => EmptyString
  end.

(** The loop of [NewSource], over the candidates in the order it tries
    them; [err] is the error of the last builder that ran.  A type
    without a builder is a call of a nil function.  The result
    [Ok None] is the pair [(nil, nil)]. *)
Fixpoint tryBuilders (R : Registry) (candidates : list SourceType)
    (sourceOptions : SourceOptions) (W : World) (err : option error)
    : World * result (option Source) :=
  match candidates with
  | [] =>
      (W, match err with Some e => Err e | None => Ok None end)
  | typ :: rest =>
      match sources R !! typ with
      | None => (W, Panic)
      | Some builder =>
          match builder sourceOptions W with
          | (W', Ok source) => (W', Ok (Some source))
          | (W', Err e) => tryBuilders R rest sourceOptions W' (Some e)
          | (W', Panic) => (W', Panic)
          end
      end
  end.

Definition NewSource (R : Registry) (optsSlice : list Options) (W : World)
    : World * result (option Source) :=
  let filePath := Getenv W "CONFIG_PATH" in
  let convention := Getenv W "CONFIG_CONVENTION" in
  let sourceType := Str.ToLower (Getenv W "CONFIG_TYPE") in
  let '(filePath, convention, sourceType) :=
    match optsSlice with
    | opts :: _ =>
        (stringOrDefault filePath (FilePath (Options_SourceOptions opts)),
         stringOrDefault convention (Convention (Options_SourceOptions opts)),
         stringOrDefault sourceType (Options_SourceType opts))
    | [] => (filePath, convention, sourceType)
    end in
  let subsetSources :=
    if negb (Str.is_empty sourceType) then [sourceType]
    else if negb (Str.is_empty filePath) then
      let inferredType := inferSourceTypeFromFilePath R filePath in
      if negb (Str.is_empty inferredType) then [inferredType]
      else reverseOrderedSources R
    else reverseOrderedSources R in
  tryBuilders R (List.rev subsetSources) (mkSourceOptions filePath convention) W None.

(** ** Predicates the statements use *)

Module Spec.


Fixpoint all (P : ascii -> bool) (s : string) : bool :=
  match s with
  | EmptyString => true
  | String c r => P c && all P r
  end.

Definition notUpper (c : ascii) : bool := negb (Str.is_upper c).
Definition notLower (c : ascii) : bool := negb (Str.is_lower c).
Definition notDot (c : ascii) : bool := negb (Ascii.eqb c ".").

(** A digit immediately followed by an upper-case letter. *)
Fixpoint digitBeforeUpper (s : string) : bool :=
  match s with
  | String a ((String b _) as r) =>
      (Str.is_digit a && Str.is_upper b) || digitBeforeUpper r
  | _ => false
  end.

End Spec.

(** What the upper-snake normalizer does to one part of a key. *)
Definition upperPart (part : string) : string :=
  Str.ToUpper (camelToSnake part false).

(** The type a pointer chain ends in. *)
Fixpoint pointee (t : type) : type :=
  match t with
  | TPtr e => pointee e
  | _ => t
  end.


(** [e] is an error some declared [ReadConfig] returns. *)
Definition readerError (D : Decls) (e : error) : Prop :=
  exists name reader src l st st',
    ReadConfig (declOf D name) = Some reader
    /\ reader src l st = (st', Some e).










Definition isMapping (v : value) : bool :=
  match v with VMap _ => true | _ => false end.

(** ** The use of a source (README.md): build it for the requested
    convention, then read from it.  A construction that fails gives its
    error to the caller and nothing is read. *)





(** ** Concrete programs and worlds for the examples *)

Module Ex.

(** A process with the given environment, the initial registry, and a
    standard library that parses nothing. *)
Definition world (environment : gmap string string) : World :=
  mkWorld environment defaultSourceConventions
    (fun _ => None) (fun _ => None) (fun _ => None)
    (fun _ => 0%Z) (fun _ => EmptyString).

Definition jsonSource (data : list (string * value)) : MapSource :=
  mkMapSource JSONSourceType data (Some CamelCaseNormalizer).

Definition envSource (n : KeyNormalizer) : EnvSource := mkEnvSource n.

(** One variable of the caller, in cell 0, and a pointer to it. *)
Definition oneCell : Store := mkStore [DZero] [] [].
Definition ptrTo (t : type) : Ptr := mkPtr (Loc 0 []) t false.

Definition mapSource : MapSource := jsonSource [].



(** A world whose JSON parser knows one text and the tree it denotes. *)
Definition jsonWorld (environment : gmap string string)
    (text : string) (tree : value) : World :=
  mkWorld environment defaultSourceConventions
    (fun _ => None) (fun _ => None)
    (fun t => if String.eqb t text then Some tree else None)
    (fun _ => 0%Z) (fun _ => EmptyString).

Definition quoted (s : string) : string :=
  String "034" (s +:+ String "034" EmptyString).


(** The text [[{"key":"discord","secret":"s"}]] and its tree. *)
Definition providersText : string :=
  "[{" +:+ quoted "key" +:+ ":" +:+ quoted "discord" +:+ ","
  +:+ quoted "secret" +:+ ":" +:+ quoted "s" +:+ "}]".
Definition providersTree : value :=
  VSlice [VMap [("key", VString "discord"); ("secret", VString "s")]].

(** [type Provider struct { Key string; Secret string }]. *)
Definition providerDecls : Decls :=
  <["Provider" := mkStruct [mkField "Key" EmptyString false TString;
                            mkField "Secret" EmptyString false TString] None]> ∅.


(** [type Server struct { Host string }]. *)
Definition serverDecls : Decls :=
  <["Server" := mkStruct [mkField "Host" EmptyString false TString] None]> ∅.

End Ex.

(** ** Predicates of the further properties *)

(** The element types whose slices the environment source reads as a
    comma-separated list of scalars: not a struct or a slice, which it
    reads as JSON, and not a map, whose pieces it hands to the map
    decoder. *)
Definition listElem (t : type) : bool :=
  match t with
  | TStruct _ | TSlice _ | TMap _ _ => false
  | _ => true
  end.


(** The key under which the loop of [readKey] enqueues a field of the
    struct at [itemKey]. *)
Definition absoluteKey (itemKey childKey : string) : string :=
  if negb (Str.is_empty itemKey) then concatenateKeys [itemKey; childKey]
  else childKey.

(** A target reached through an unexported embedded field whose type is
    a struct or a pointer. *)
Definition readOnlyStruct (p : Ptr) : bool :=
  readOnly p
  && match elemType p with
     | TStruct _ | TPtr _ => true
     | _ => false
     end.

(** [type base struct { Host string }] and
    [type App struct { base }]: an embedded struct with an unexported
    name. *)
Definition embeddingDecls : Decls :=
  <["App" := mkStruct [mkField "base" EmptyString true (TStruct "base")] None]>
  (<["base" := mkStruct [mkField "Host" EmptyString false TString] None]> ∅).

(** No declared struct type has a [ReadConfig] method. *)
Definition noReaders (D : Decls) : Prop :=
  forall name, ReadConfig (declOf D name) = None.

(** The footprint of a decoding step.  [keeps L M F c0 m0 f0 st st']:
    the store [st'] has what [st] has in the cells below [L] other than
    [c0], in the map objects below [M] other than [m0] and in the flags
    below [F] other than [f0], and nothing was freed. *)
Definition fits (L M F : nat) (st : Store) : Prop :=
  L <= length (cells st) /\ M <= length (maps st) /\ F <= length (flags st).

Definition keeps (L M F c0 : nat) (m0 f0 : option nat) (st st' : Store) : Prop :=
  length (cells st) <= length (cells st')
  /\ length (maps st) <= length (maps st')
  /\ length (flags st) <= length (flags st')
  /\ (forall c, c < L -> c <> c0 -> cells st' !! c = cells st !! c)
  /\ (forall m, m < M -> m0 <> Some m -> maps st' !! m = maps st !! m)
  /\ (forall f, f < F -> f0 <> Some f -> flags st' !! f = flags st !! f).

Definition cellOf (item : mapQueueItem) : nat := cell (addr (target item)).

Definition targetFits (L c0 : nat) (l : loc) : Prop :=
  cell l = c0 \/ L <= cell l.

Definition callbackFits (M F : nat) (m0 f0 : option nat) (cb : callbackFunc) : Prop :=
  match cb with
  | cbNil => True
  | cbKey f => f0 = Some f \/ F <= f
  | cbValue _ m _ _ => m0 = Some m \/ M <= m
  end.

Definition callbackMap (cb : callbackFunc) : option nat :=
  match cb with cbValue _ m _ _ => Some m | _ => None end.

Definition callbackFlag (cb : callbackFunc) : option nat :=
  match cb with cbKey f => Some f | _ => None end.

(** The value items of the map object [M0] that have not run yet: their
    callback commits into [M0]. *)
Definition isPending (M0 : nat) (item : mapQueueItem) : bool :=
  match callback item with
  | cbValue _ m _ _ => m =? M0
  | _ => false
  end.

Definition zeroValues (committed : list (dval * dval)) : Prop :=
  Forall (fun kv => snd kv = DZero) committed.

(** A pending value item of [M0] points to the cell its callback reads,
    and nothing was written there. *)
Definition pendingZero (M0 : nat) (V : type) (st : Store) (item : mapQueueItem)
    : Prop :=
  match callback item with
  | cbValue _ m _ vp =>
      m = M0 ->
      target item = mkPtr vp V false
      /\ path vp = []
      /\ cells st !! cell vp = Some DZero
  | _ => True
  end.

(** No other item of the queue targets the cell of a pending item. *)
Definition separated (M0 : nat) (queue : list mapQueueItem) : Prop :=
  forall i j a b,
    i <> j -> queue !! i = Some a -> queue !! j = Some b ->
    isPending M0 b = true -> cellOf a <> cellOf b.

Definition zeroInv (M0 L0 : nat) (V : type) (queue : list mapQueueItem)
    (st : Store) : Prop :=
  (exists committed, maps st !! M0 = Some committed /\ zeroValues committed)
  /\ Forall (fun item =>
               L0 <= cellOf item < length (cells st)
               /\ pendingZero M0 V st item) queue
  /\ separated M0 queue.

(** The argument [godotenv.Load] is called with, and the options
    [NewSource] builds from the environment alone. *)
Definition dotenvPath (opts : SourceOptions) : option string :=
  if negb (Str.is_empty (FilePath opts)) then Some (FilePath opts) else None.

Definition environmentOptions (W : World) : SourceOptions :=
  mkSourceOptions (Getenv W "CONFIG_PATH") (Getenv W "CONFIG_CONVENTION").

(** A host without files: nothing opens, and [godotenv.Load] reports a
    missing file. *)
Definition noFiles : Host :=
  mkHost (fun path => Err (ReaderError path))
         (fun _ => Ok []) (fun _ => Ok [])
         (fun _ environment => (environment, Some (ReaderError "no file")))
         (fun _ => true).

(** A host whose files cannot be read: the error of [godotenv.Load] is
    not [os.ErrNotExist]. *)
Definition unreadableFiles : Host :=
  mkHost (fun path => Err (ReaderError path))
         (fun _ => Ok []) (fun _ => Ok [])
         (fun _ environment => (environment, Some (ReaderError "unreadable")))
         (fun _ => false).

(** * Properties *)

(** ** Characters and strings *)

Ltac ascii_cases c :=
  destruct c as [[] [] [] [] [] [] [] []]; try reflexivity; try discriminate.

Lemma to_lower_not_upper c : Str.is_upper (Str.to_lower c) = false.
Proof. ascii_cases c. Qed.

Lemma to_upper_not_lower c : Str.is_lower (Str.to_upper c) = false.
Proof. ascii_cases c. Qed.

Lemma to_lower_fixed c : Str.is_upper c = false -> Str.to_lower c = c.
Proof. unfold Str.to_lower. intros ->. reflexivity. Qed.

Lemma to_upper_fixed c : Str.is_lower c = false -> Str.to_upper c = c.
Proof. unfold Str.to_upper. intros ->. reflexivity. Qed.

Lemma to_lower_dot c : Ascii.eqb (Str.to_lower c) "." = Ascii.eqb c ".".
Proof. ascii_cases c. Qed.

Lemma to_upper_dot c : Ascii.eqb (Str.to_upper c) "." = Ascii.eqb c ".".
Proof. ascii_cases c. Qed.

Lemma all_map (P : ascii -> bool) f s :
  (forall c, P (f c) = true) -> Spec.all P (Str.map f s) = true.
Proof.
  intros H. induction s as [|c r IH]; simpl; [reflexivity|].
  now rewrite H, IH.
Qed.

Lemma map_fixed (P : ascii -> bool) f s :
  (forall c, P c = true -> f c = c) -> Spec.all P s = true -> Str.map f s = s.
Proof.
  intros Hf. induction s as [|c r IH]; simpl; [reflexivity|].
  intros [Hc Hr]%andb_true_iff. now rewrite (Hf _ Hc), (IH Hr).
Qed.

(** ** [parseBool] *)


(** ** The two substitutions of [camelToSnake] *)

Lemma string_len_ind (P : string -> Prop) :
  (forall s, (forall t, String.length t < String.length s -> P t) -> P s) ->
  forall s, P s.
Proof.
  intros H s. remember (String.length s) as n eqn:Hn.
  revert s Hn. induction n as [n IH] using lt_wf_ind.
  intros s ->. apply H. intros t Ht. exact (IH _ Ht t eq_refl).
Qed.

Lemma all_app (P : ascii -> bool) a b :
  Spec.all P (a +:+ b) = Spec.all P a && Spec.all P b.
Proof.
  induction a as [|c r IH]; simpl; [reflexivity|].
  now rewrite IH, andb_assoc.
Qed.

Lemma all_cons (P : ascii -> bool) c r :
  Spec.all P (String c r) = true <-> P c = true /\ Spec.all P r = true.
Proof. simpl. apply andb_true_iff. Qed.

(** Both substitutions only insert underscores. *)
Lemma replaceFirstCap_all (P : ascii -> bool) :
  P "_"%char = true ->
  forall s b, Spec.all P s = true -> Spec.all P (replaceFirstCap b s) = true.
Proof.
  intros Hu s. induction s as [s IH] using string_len_ind. intros b Hs.
  destruct s as [|c r]; [reflexivity|].
  apply all_cons in Hs as [Hc Hr]. simpl.
  destruct (b && Str.is_lower c).
  - apply all_cons. split; [exact Hc|]. apply IH; [simpl; lia|exact Hr].
  - destruct r as [|u [|l r']].
    + apply all_cons. split; [exact Hc|reflexivity].
    + apply all_cons. split; [exact Hc|]. apply IH; [simpl; lia|exact Hr].
    + pose proof Hr as Hr0.
      apply all_cons in Hr as [Hu' Hr]. apply all_cons in Hr as [Hl Hr'].
      destruct (negb (Ascii.eqb c "010") && Str.is_upper u && Str.is_lower l).
      * repeat (apply all_cons; split; [assumption|]).
        apply IH; [simpl; lia|exact Hr'].
      * apply all_cons. split; [exact Hc|]. apply IH; [simpl; lia|exact Hr0].
Qed.

Lemma replaceAllCap_all (P : ascii -> bool) :
  P "_"%char = true ->
  forall s, Spec.all P s = true -> Spec.all P (replaceAllCap s) = true.
Proof.
  intros Hu s. induction s as [s IH] using string_len_ind. intros Hs.
  destruct s as [|a r]; [reflexivity|].
  apply all_cons in Hs as [Ha Hr]. simpl.
  destruct r as [|b r'].
  - apply all_cons. split; [exact Ha|reflexivity].
  - pose proof Hr as Hr0. apply all_cons in Hr as [Hb Hr'].
    destruct ((Str.is_lower a || Str.is_digit a) && Str.is_upper b).
    + repeat (apply all_cons; split; [assumption|]).
      apply IH; [simpl; lia|exact Hr'].
    + apply all_cons. split; [exact Ha|]. apply IH; [simpl; lia|exact Hr0].
Qed.

Lemma camelToSnake_all (P : ascii -> bool) s :
  P "_"%char = true -> Spec.all P s = true -> Spec.all P (camelToSnake s false) = true.
Proof.
  intros Hu Hs. unfold camelToSnake.
  apply replaceAllCap_all; [exact Hu|]. apply replaceFirstCap_all; assumption.
Qed.

Lemma replaceFirstCap_eq b c r :
  replaceFirstCap b (String c r) =
    if b && Str.is_lower c then String c (replaceFirstCap true r)
    else
      match r with
      | String u (String l r') =>
          if negb (Ascii.eqb c "010") && Str.is_upper u && Str.is_lower l
          then String c (String "_" (String u (String l (replaceFirstCap true r'))))
          else String c (replaceFirstCap false r)
      | _ => String c (replaceFirstCap false r)
      end.
Proof. reflexivity. Qed.

Lemma replaceAllCap_eq a r :
  replaceAllCap (String a r) =
    match r with
    | String b r' =>
        if (Str.is_lower a || Str.is_digit a) && Str.is_upper b
        then String a (String "_" (String b (replaceAllCap r')))
        else String a (replaceAllCap r)
    | EmptyString => String a EmptyString
    end.
Proof. reflexivity. Qed.

(** Without an upper-case letter there is nothing to split. *)
Lemma replaceFirstCap_noupper s :
  Spec.all Spec.notUpper s = true -> forall b, replaceFirstCap b s = s.
Proof.
  induction s as [s IH] using string_len_ind. intros Hs b.
  destruct s as [|c r]; [reflexivity|].
  apply all_cons in Hs as [Hc Hr]. rewrite replaceFirstCap_eq.
  assert (Hrec : forall b', replaceFirstCap b' r = r)
    by (intros b'; apply IH; [simpl; lia|exact Hr]).
  destruct (b && Str.is_lower c); [now rewrite Hrec|].
  destruct r as [|u [|l r']]; [reflexivity|now rewrite Hrec|].
  apply all_cons in Hr as [Hu' _].
  unfold Spec.notUpper in Hu'. apply negb_true_iff in Hu'.
  rewrite Hu', andb_false_r. cbn [andb]. now rewrite Hrec.
Qed.

Lemma replaceAllCap_noupper s :
  Spec.all Spec.notUpper s = true -> replaceAllCap s = s.
Proof.
  induction s as [s IH] using string_len_ind. intros Hs.
  destruct s as [|a r]; [reflexivity|].
  apply all_cons in Hs as [Ha Hr]. rewrite replaceAllCap_eq.
  assert (Hrec : replaceAllCap r = r) by (apply IH; [simpl; lia|exact Hr]).
  destruct r as [|b r']; [reflexivity|].
  apply all_cons in Hr as [Hb _].
  unfold Spec.notUpper in Hb. apply negb_true_iff in Hb.
  rewrite Hb, andb_false_r. now rewrite Hrec.
Qed.

(** Without a lower-case letter [matchFirstCap] has no match, and
    [matchAllCap] matches a digit before a capital. *)
Lemma replaceFirstCap_nolower s :
  Spec.all Spec.notLower s = true -> forall b, replaceFirstCap b s = s.
Proof.
  induction s as [s IH] using string_len_ind. intros Hs b.
  destruct s as [|c r]; [reflexivity|].
  apply all_cons in Hs as [Hc Hr]. rewrite replaceFirstCap_eq.
  assert (Hrec : forall b', replaceFirstCap b' r = r)
    by (intros b'; apply IH; [simpl; lia|exact Hr]).
  destruct (b && Str.is_lower c); [now rewrite Hrec|].
  destruct r as [|u [|l r']]; [reflexivity|now rewrite Hrec|].
  apply all_cons in Hr as [_ Hr]. apply all_cons in Hr as [Hl _].
  unfold Spec.notLower in Hl. apply negb_true_iff in Hl.
  rewrite Hl, andb_false_r. now rewrite Hrec.
Qed.

Lemma digitBeforeUpper_eq a b r :
  Spec.digitBeforeUpper (String a (String b r)) =
    (Str.is_digit a && Str.is_upper b) || Spec.digitBeforeUpper (String b r).
Proof. reflexivity. Qed.

Lemma replaceAllCap_length s :
  String.length s <= String.length (replaceAllCap s).
Proof.
  induction s as [s IH] using string_len_ind.
  destruct s as [|a [|b r']]; [reflexivity|reflexivity|].
  rewrite replaceAllCap_eq.
  destruct ((Str.is_lower a || Str.is_digit a) && Str.is_upper b).
  - specialize (IH r'). cbn [String.length] in *. lia.
  - specialize (IH (String b r')). cbn [String.length] in *. lia.
Qed.

Lemma replaceAllCap_grows s :
  Spec.digitBeforeUpper s = true ->
  String.length s < String.length (replaceAllCap s).
Proof.
  induction s as [s IH] using string_len_ind. intros Hs.
  destruct s as [|a [|b r']]; try discriminate.
  rewrite replaceAllCap_eq. rewrite digitBeforeUpper_eq in Hs.
  destruct ((Str.is_lower a || Str.is_digit a) && Str.is_upper b) eqn:E.
  - pose proof (replaceAllCap_length r'). cbn [String.length]. lia.
  - apply orb_true_iff in Hs as [Hs|Hs].
    + apply andb_true_iff in Hs as [Hd Hu]. rewrite Hd, Hu, orb_true_r in E.
      discriminate.
    + specialize (IH (String b r')). cbn [String.length] in *.
      apply -> Nat.succ_lt_mono. apply IH; [lia|exact Hs].
Qed.

Lemma replaceAllCap_nolower s :
  Spec.all Spec.notLower s = true ->
  Spec.digitBeforeUpper s = false -> replaceAllCap s = s.
Proof.
  induction s as [s IH] using string_len_ind. intros Hs Hd.
  destruct s as [|a [|b r']]; try reflexivity.
  rewrite digitBeforeUpper_eq in Hd. apply orb_false_iff in Hd as [Hab Hd].
  apply all_cons in Hs as [Ha Hr].
  unfold Spec.notLower in Ha. apply negb_true_iff in Ha.
  rewrite replaceAllCap_eq, Ha. cbn [orb]. rewrite Hab.
  f_equal. apply IH; [cbn [String.length]; lia|exact Hr|exact Hd].
Qed.

(** ** [strings.Split] and [strings.Join] *)

Lemma Split_nonempty sep s : Str.Split sep s <> [].
Proof.
  destruct s as [|c r]; simpl; [discriminate|].
  destruct (Ascii.eqb c sep); [discriminate|].
  destruct (Str.Split sep r); discriminate.
Qed.

Lemma Split_parts_nodot s :
  Forall (fun p => Spec.all Spec.notDot p = true) (Str.Split "." s).
Proof.
  induction s as [|c r IH]; simpl.
  - repeat constructor.
  - destruct (Ascii.eqb c ".") eqn:E.
    + constructor; [reflexivity|exact IH].
    + destruct (Str.Split "." r) as [|h t].
      * repeat constructor. simpl. unfold Spec.notDot. now rewrite E.
      * inversion IH; subst. constructor; [|assumption].
        simpl. unfold Spec.notDot at 1. rewrite E. simpl. assumption.
Qed.

Lemma Split_nodot s :
  Spec.all Spec.notDot s = true -> Str.Split "." s = [s].
Proof.
  induction s as [|c r IH]; [reflexivity|].
  intros [Hc Hr]%all_cons. simpl.
  unfold Spec.notDot in Hc. apply negb_true_iff in Hc. rewrite Hc.
  now rewrite (IH Hr).
Qed.

Lemma Split_app_dot p rest :
  Spec.all Spec.notDot p = true ->
  Str.Split "." (p +:+ String "." rest) = p :: Str.Split "." rest.
Proof.
  induction p as [|c r IH]; [reflexivity|].
  intros [Hc Hr]%all_cons. simpl.
  unfold Spec.notDot in Hc. apply negb_true_iff in Hc. rewrite Hc.
  now rewrite (IH Hr).
Qed.

Lemma Split_Join parts :
  parts <> [] ->
  Forall (fun p => Spec.all Spec.notDot p = true) parts ->
  Str.Split "." (Str.Join "." parts) = parts.
Proof.
  induction parts as [|p rest IH]; [congruence|].
  intros _ Hall. inversion Hall as [|? ? Hp Hrest]; subst.
  destruct rest as [|q rest'].
  - simpl. apply Split_nodot. exact Hp.
  - change (Str.Join "." (p :: q :: rest'))
      with (p +:+ String "." (Str.Join "." (q :: rest'))).
    rewrite Split_app_dot by exact Hp.
    f_equal. apply IH; [discriminate|exact Hrest].
Qed.

Lemma Join_all (P : ascii -> bool) sep parts :
  Spec.all P sep = true ->
  Forall (fun p => Spec.all P p = true) parts ->
  Spec.all P (Str.Join sep parts) = true.
Proof.
  intros Hsep. induction parts as [|p rest IH]; [reflexivity|].
  intros Hall. inversion Hall as [|? ? Hp Hrest]; subst.
  destruct rest as [|q rest'].
  - exact Hp.
  - change (Str.Join sep (p :: q :: rest'))
      with (p +:+ sep +:+ Str.Join sep (q :: rest')).
    rewrite !all_app, Hp, Hsep, (IH Hrest). reflexivity.
Qed.

(** ** [lcfirst] over the parts of a key *)

Lemma lcfirst_all_None parts :
  lcfirst_all parts = None <-> In EmptyString parts.
Proof.
  induction parts as [|p rest IH]; simpl.
  - split; [discriminate|tauto].
  - destruct p as [|c r]; simpl.
    + split; [auto|reflexivity].
    + destruct (lcfirst_all rest) eqn:E.
      * split; [discriminate|]. intros [H|H]; [discriminate|].
        apply IH in H. discriminate.
      * split; [|reflexivity]. intros _. right. now apply IH.
Qed.

Lemma lcfirst_all_fixed parts parts' :
  lcfirst_all parts = Some parts' ->
  lcfirst_all parts' = Some parts'
  /\ (parts <> [] -> parts' <> [])
  /\ (Forall (fun p => Spec.all Spec.notDot p = true) parts ->
      Forall (fun p => Spec.all Spec.notDot p = true) parts').
Proof.
  revert parts'. induction parts as [|p rest IH]; intros parts' H; simpl in H.
  - injection H as <-. repeat split; auto.
  - destruct p as [|c r]; [discriminate|]. simpl in H.
    destruct (lcfirst_all rest) as [rest'|] eqn:E; [|discriminate].
    injection H as <-. destruct (IH _ eq_refl) as (IH1 & _ & IH3).
    repeat split.
    + simpl. rewrite IH1.
      now rewrite (to_lower_fixed _ (to_lower_not_upper c)).
    + discriminate.
    + intros Hall. inversion Hall as [|? ? Hp Hrest]; subst.
      constructor; [|auto].
      apply all_cons in Hp as [Hc Hr]. apply all_cons. split; [|exact Hr].
      unfold Spec.notDot in *. now rewrite to_lower_dot.
Qed.

(** ** The normalizers *)

Lemma all_map_impl (P Q : ascii -> bool) f s :
  (forall c, P c = true -> Q (f c) = true) ->
  Spec.all P s = true -> Spec.all Q (Str.map f s) = true.
Proof.
  intros H. induction s as [|c r IH]; [reflexivity|].
  intros [Hc Hr]%all_cons. apply all_cons. split; [now apply H|now apply IH].
Qed.

Lemma map_length f s : String.length (Str.map f s) = String.length s.
Proof. induction s as [|c r IH]; simpl; [reflexivity|now rewrite IH]. Qed.

Lemma ToUpper_nolower s : Spec.all Spec.notLower (Str.ToUpper s) = true.
Proof.
  apply all_map. intros c. unfold Spec.notLower.
  now rewrite to_upper_not_lower.
Qed.

Lemma ToLower_noupper s : Spec.all Spec.notUpper (Str.ToLower s) = true.
Proof.
  apply all_map. intros c. unfold Spec.notUpper.
  now rewrite to_lower_not_upper.
Qed.

Lemma ToUpper_fixed s : Spec.all Spec.notLower s = true -> Str.ToUpper s = s.
Proof.
  apply map_fixed. intros c Hc. apply to_upper_fixed.
  now apply negb_true_iff.
Qed.

Lemma ToLower_fixed s : Spec.all Spec.notUpper s = true -> Str.ToLower s = s.
Proof.
  apply map_fixed. intros c Hc. apply to_lower_fixed.
  now apply negb_true_iff.
Qed.

(** The upper-snake form of a key has neither a lower-case letter nor a
    dot. *)
Lemma upper_snake_shape k :
  let k1 := Str.Join "_" (List.map upperPart (Str.Split "." k)) in
  Spec.all Spec.notLower k1 = true /\ Spec.all Spec.notDot k1 = true.
Proof.
  split.
  - apply Join_all; [reflexivity|].
    apply List.Forall_forall. intros p [x [<- _]]%in_map_iff.
    apply ToUpper_nolower.
  - apply Join_all; [reflexivity|].
    apply List.Forall_forall. intros p [x [<- Hx]]%in_map_iff.
    unfold upperPart. apply all_map_impl with (P := Spec.notDot).
    + intros c Hc. unfold Spec.notDot in *. now rewrite to_upper_dot.
    + apply camelToSnake_all; [reflexivity|].
      pose proof (Split_parts_nodot k) as H.
      rewrite List.Forall_forall in H. now apply H.
Qed.

Lemma upper_snake_again k1 :
  Spec.all Spec.notLower k1 = true -> Spec.all Spec.notDot k1 = true ->
  Normalize UpperSnakeCaseNormalizer k1 = Some (Str.ToUpper (replaceAllCap k1)).
Proof.
  intros Hl Hd. unfold Normalize. rewrite (Split_nodot _ Hd). simpl.
  unfold camelToSnake. now rewrite (replaceFirstCap_nolower _ Hl).
Qed.

Lemma lower_snake_again k1 :
  Spec.all Spec.notUpper k1 = true -> camelToSnake k1 true = k1.
Proof.
  intros Hk. unfold camelToSnake.
  rewrite (replaceFirstCap_noupper _ Hk), (replaceAllCap_noupper _ Hk).
  apply ToLower_fixed, Hk.
Qed.

(** C9, as the code has it.  Normalizing a key the same normalizer
    returned gives that key again under the lower-snake and the camel
    conventions; under the upper-snake convention it does so exactly
    when the normalized key has no digit immediately before a letter. *)
Theorem Normalize_idempotent_on_normalized :
  forall (n : KeyNormalizer) (k k1 : string),
    Normalize n k = Some k1 ->
    match n with
    | UpperSnakeCaseNormalizer =>
        Normalize n k1 = Some k1 <-> Spec.digitBeforeUpper k1 = false
    | _ => Normalize n k1 = Some k1
    end.
Proof.
  intros [| |] k k1 H.
  - (* lower-snake *)
    injection H as <-. cbn [Normalize]. f_equal.
    apply lower_snake_again. apply ToLower_noupper.
  - (* upper-snake *)
    injection H as <-.
    destruct (upper_snake_shape k) as [Hl Hd].
    change (fun part => Str.ToUpper (camelToSnake part false)) with upperPart.
    set (k1 := Str.Join "_" _) in *.
    rewrite (upper_snake_again _ Hl Hd). split.
    + intros Heq. destruct (Spec.digitBeforeUpper k1) eqn:E; [|reflexivity].
      apply replaceAllCap_grows in E.
      injection Heq as Heq. apply (f_equal String.length) in Heq.
      unfold Str.ToUpper in Heq. rewrite map_length in Heq. lia.
    + intros E. rewrite (replaceAllCap_nolower _ Hl E).
      now rewrite (ToUpper_fixed _ Hl).
  - (* camel *)
    unfold Normalize in H.
    destruct (lcfirst_all (Str.Split "." k)) as [parts|] eqn:E; [|discriminate].
    injection H as <-.
    destruct (lcfirst_all_fixed _ _ E) as (Hfix & Hne & Hdot).
    unfold Normalize.
    rewrite Split_Join; [now rewrite Hfix| |].
    + apply Hne, Split_nonempty.
    + apply Hdot, Split_parts_nodot.
Qed.

Lemma Normalize_idempotent_on_normalized_witness :
  Normalize SnakeCaseNormalizer "confusing.welcome_message"
  = Some "confusing.welcome_message".
Proof.
  exact (Normalize_idempotent_on_normalized SnakeCaseNormalizer
           "confusing.welcomeMessage" "confusing.welcome_message" eq_refl).
Defined.

(** C9 as stated fails for the upper-snake convention: [md5sum] becomes
    [MD5SUM], and [MD5SUM] becomes [MD5_SUM]. *)
Lemma upper_snake_not_idempotent :
  Normalize UpperSnakeCaseNormalizer "md5sum" = Some "MD5SUM"
  /\ Normalize UpperSnakeCaseNormalizer "MD5SUM" = Some "MD5_SUM"
  /\ ~ (forall n k k1, Normalize n k = Some k1 -> Normalize n k1 = Some k1).
Proof.
  split; [reflexivity|]. split; [reflexivity|].
  intros H.
  specialize (H UpperSnakeCaseNormalizer "md5sum" "MD5SUM" eq_refl).
  discriminate H.
Qed.

(** ** Pointer targets *)

Lemma pointee_not_ptr t e : pointee t <> TPtr e.
Proof. induction t; simpl; congruence. Qed.

Lemma unwrap_pointee t : forall l st,
  snd (fst (unwrap t l st)) = pointee t.
Proof.
  induction t; intros l st; try reflexivity.
  cbn [unwrap pointee]. unfold newCell. apply IHt.
Qed.

Lemma unwrapTarget_writable p st :
  readOnly p = false ->
  exists tgt st',
    unwrapTarget p st = Some (tgt, st')
    /\ elemType tgt = pointee (elemType p)
    /\ readOnly tgt = false.
Proof.
  intros Hro. unfold unwrapTarget. rewrite Hro.
  destruct (elemType p) eqn:E;
    try (exists p, st; rewrite E; repeat split; assumption).
  pose proof (unwrap_pointee (TPtr t) (addr p) st) as H.
  destruct (unwrap (TPtr t) (addr p) st) as [[tgt t'] st'].
  simpl in H. subst t'. eexists _, _. repeat split.
Qed.

(** C10, as the code has it.  [CamelCaseNormalizer.Normalize] returns a
    key exactly when no part of the key is empty, and panics otherwise,
    the empty key included.  [MapSource.ReadKey] on a camel source and a
    pointer target panics for every key other than the empty one that
    has an empty part; the empty key is answered with the whole tree
    without a call of [Normalize].  [EnvSource.ReadKey] on a camel
    source panics for every key with an empty part when the target does
    not end in a struct. *)
Theorem camel_empty_part_panics : forall k : string,
  (Normalize CamelCaseNormalizer k = None <-> In EmptyString (Str.Split "." k))
  /\ (forall W D s p st,
        normalizer s = Some CamelCaseNormalizer ->
        k <> EmptyString -> In EmptyString (Str.Split "." k) ->
        MapSource_ReadKey W D s k (Pointer p) st = Some Panics)
  /\ (forall W D s p st,
        MapSource_ReadKey W D s EmptyString (Pointer p) st
        = readMapPrimitive W D s (VMap (data s)) p st)
  /\ (forall fuel W D s p st,
        env_normalizer s = CamelCaseNormalizer ->
        In EmptyString (Str.Split "." k) ->
        readOnly p = false -> isStruct (pointee (elemType p)) = false ->
        EnvSource_ReadKey (S fuel) W D s k (Pointer p) st = Some Panics).
Proof.
  intros k.
  assert (HN : Normalize CamelCaseNormalizer k = None
               <-> In EmptyString (Str.Split "." k)).
  { unfold Normalize. rewrite <- lcfirst_all_None.
    destruct (lcfirst_all (Str.Split "." k)); split; congruence. }
  split; [exact HN|]. split; [|split].
  - intros W D s p st Hs Hkey Hin. unfold MapSource_ReadKey, getKeyFromMap.
    destruct k as [|c r]; [congruence|]. cbn [Str.is_empty].
    rewrite Hs. apply HN in Hin. now rewrite Hin.
  - reflexivity.
  - intros fuel W D s p st Hs Hin Hro Hty. apply HN in Hin.
    unfold EnvSource_ReadKey, readKey. cbn [readKeyLoop].
    unfold envStep. cbn [envTarget key].
    destruct (unwrapTarget_writable p st Hro) as (tgt & st' & -> & Hty' & _).
    unfold readEnvKey. rewrite Hs, Hin. rewrite Hty'.
    destruct (pointee (elemType p)) eqn:E; try reflexivity.
    discriminate.
Qed.

Lemma camel_empty_part_panics_witness :
  MapSource_ReadKey (Ex.world ∅) Ex.serverDecls (Ex.jsonSource []) "server..host"
    (Pointer (Ex.ptrTo TString)) Ex.oneCell = Some Panics.
Proof.
  apply (proj1 (proj2 (camel_empty_part_panics "server..host"))).
  - reflexivity.
  - discriminate.
  - simpl. auto.
Defined.

(** C10 as stated fails for the empty key: [Normalize] panics on it, and
    [ReadKey] of a camel source answers it with the whole tree. *)
Lemma camel_ReadKey_empty_key_returns :
  Normalize CamelCaseNormalizer EmptyString = None
  /\ MapSource_ReadKey (Ex.world ∅) Ex.serverDecls
       (Ex.jsonSource [("host", VString "127.0.0.1")]) EmptyString
       (Pointer (Ex.ptrTo (TStruct "Server"))) Ex.oneCell
     = Some (Returns None (mkStore [DStruct [DString "127.0.0.1"]] [] [])).
Proof. split; vm_compute; reflexivity. Qed.

(** ** The tree accessor *)

Lemma walk_app pre rest v : walk (pre ++ rest) v = walk rest (walk pre v).
Proof.
  revert v. induction pre as [|part pre IH]; intros v; [reflexivity|].
  simpl. destruct v; try apply IH; clear; induction rest; auto.
Qed.

Lemma walk_not_mapping part post v :
  isMapping v = false -> walk (part :: post) v = VNil.
Proof. destruct v; simpl; congruence. Qed.

(** C8.  The lookup of a key is the walk over the parts of its
    normalized form; it is absent as soon as the value a part is looked
    up in is not a mapping; and [ReadKey] of an absent value returns
    without an error and leaves the store as it was. *)
Theorem lookup_absent_is_not_an_error :
  forall (W : World) (D : Decls) (s : MapSource) (k : string) (p : Ptr) (st : Store),
    (forall n k' pre part post,
        k <> EmptyString ->
        normalizer s = Some n -> Normalize n k = Some k' ->
        Str.Split "." k' = pre ++ part :: post ->
        isMapping (walk pre (VMap (data s))) = false ->
        getKeyFromMap s (data s) k = Some VNil)
    /\ (getKeyFromMap s (data s) k = Some VNil ->
        MapSource_ReadKey W D s k (Pointer p) st = Some (Returns None st)).
Proof.
  intros W D s k p st. split.
  - intros n k' pre part post Hk Hn Hnorm Hsplit Hcur.
    unfold getKeyFromMap. destruct k as [|c r]; [congruence|].
    cbn [Str.is_empty]. rewrite Hn, Hnorm, Hsplit, walk_app.
    now rewrite (walk_not_mapping _ _ _ Hcur).
  - intros H. unfold MapSource_ReadKey. rewrite H. reflexivity.
Qed.

Lemma lookup_absent_is_not_an_error_witness :
  getKeyFromMap (Ex.jsonSource [("server", VString "localhost")])
    [("server", VString "localhost")] "server.host.name" = Some VNil
  /\ MapSource_ReadKey (Ex.world ∅) Ex.serverDecls
       (Ex.jsonSource [("server", VString "localhost")]) "server.host.name"
       (Pointer (Ex.ptrTo TString)) Ex.oneCell
     = Some (Returns None Ex.oneCell).
Proof.
  pose proof (lookup_absent_is_not_an_error (Ex.world ∅) Ex.serverDecls
                (Ex.jsonSource [("server", VString "localhost")])
                "server.host.name" (Ex.ptrTo TString) Ex.oneCell) as [H1 H2].
  assert (H : getKeyFromMap (Ex.jsonSource [("server", VString "localhost")])
                [("server", VString "localhost")] "server.host.name" = Some VNil).
  { apply (H1 CamelCaseNormalizer "server.host.name" ["server"] "host" ["name"]);
      [discriminate|reflexivity|reflexivity|reflexivity|reflexivity]. }
  split; [exact H|exact (H2 H)].
Defined.

(** ** The convention resolver *)



(** ** The entries of a destination mapping *)

Lemma unwrap_flags t : forall l st,
  flags (snd (unwrap t l st)) = flags st
  /\ maps (snd (unwrap t l st)) = maps st.
Proof.
  induction t; intros l st; try (split; reflexivity).
  cbn [unwrap]. unfold newCell.
  destruct (IHt (Loc (length (cells st)) [])
              (store l (DPtr (Loc (length (cells st)) []))
                 (mkStore (cells st ++ [DZero]) (maps st) (flags st)))) as [H1 H2].
  split; [rewrite H1|rewrite H2]; reflexivity.
Qed.



Lemma entryItems_spec K V newMap m : forall st items st',
  entryItems K V newMap m st = (items, st') ->
  length items = 2 * length m
  /\ st' = mkStore (cells st ++ replicate (2 * length m) DZero) (maps st)
                   (flags st ++ replicate (length m) false)
  /\ forall i k v,
       m !! i = Some (k, v) ->
       let f := length (flags st) + i in
       let kp := Loc (length (cells st) + 2 * i) [] in
       let vp := Loc (length (cells st) + 2 * i + 1) [] in
       items !! (2 * i) = Some (mkMapItem (VString k) (mkPtr kp K false) (cbKey f))
       /\ items !! (2 * i + 1)
          = Some (mkMapItem v (mkPtr vp V false) (cbValue f newMap kp vp)).
Proof.
  induction m as [|[k0 v0] rest IH]; intros st items st' H.
  - injection H as <- <-. split; [reflexivity|]. split.
    + destruct st. cbn. now rewrite !app_nil_r.
    + intros i k v Hi. discriminate.
  - cbn [entryItems] in H. unfold newFlag, newCell in H. cbn [cells maps flags] in H.
    destruct (entryItems K V newMap rest _) as [items0 st0] eqn:E.
    injection H as <- <-.
    destruct (IH _ _ _ E) as (Hlen & Hst & Hitems). clear IH E.
    cbn [cells maps flags] in *. rewrite !length_app in *. cbn [length] in *.
    split; [lia|]. split.
    + rewrite Hst. f_equal.
      * replace (2 * S (length rest)) with (S (S (2 * length rest))) by lia.
        cbn [replicate]. now rewrite <- !app_assoc.
      * cbn [replicate]. now rewrite <- !app_assoc.
    + intros [|i] k v Hi.
      * injection Hi as <- <-. cbn zeta. cbn [Nat.mul Nat.add lookup list_lookup].
        rewrite !Nat.add_0_r. split; reflexivity.
      * cbn zeta. destruct (Hitems i k v Hi) as (H1 & H2). cbn zeta in H1, H2.
        replace (2 * S i) with (S (S (2 * i))) by lia.
        cbn [Nat.add lookup list_lookup].
        replace (length (cells st) + S (S (2 * i)))
          with (length (cells st) + 1 + 1 + 2 * i) by lia.
        replace (length (flags st) + S i) with (length (flags st) + 1 + i) by lia.
        split; assumption.
Qed.


Lemma readMapPrimitiveLoop_cons fuel W D s item queue st :
  readMapPrimitiveLoop (S fuel) W D s (item :: queue) st =
    match mapStep W D s item st with
    | Continue children st' =>
        readMapPrimitiveLoop fuel W D s (queue ++ children) st'
    | ReturnErr e st' => Some (Returns (Some e) st')
    | IterPanic => Some Panics
    end.
Proof. reflexivity. Qed.




(** ** Custom readers *)

Lemma readKeyLoop_cons fuel W D s item queue st :
  readKeyLoop (S fuel) W D s (item :: queue) st =
    match envStep W D s item st with
    | None => None
    | Some (Continue children st') => readKeyLoop fuel W D s (queue ++ children) st'
    | Some (ReturnErr e st') => Some (Returns (Some e) st')
    | Some IterPanic => Some Panics
    end.
Proof. reflexivity. Qed.





(** ** Mapping destinations of the environment source *)



(** ** The errors a decode returns *)

Ltac destruct_matches H :=
  repeat match type of H with
         | context [match ?x with _ => _ end] => destruct x eqn:?
         | context [if ?x then _ else _] => destruct x eqn:?
         end.

Lemma mapStep_error W D s item st e st' :
  mapStep W D s item st = ReturnErr e st' -> readerError D e.
Proof.
  unfold mapStep, assign. intros H.
  destruct_matches H; try discriminate;
    injection H as <- <-; unfold readerError; eauto 10.
Qed.











(** ** Termination of the Map decoder *)

Lemma weight_VSlice B l :
  weight B (VSlice l) = S (sum_list_with (weight B) l).
Proof.
  reflexivity.
Qed.


Lemma weight_pos B v : 1 <= weight B v.
Proof. destruct v; cbn [weight]; lia. Qed.

















(** ** Termination of the environment decoder *)

















(** ** A reader that fails *)






(** * Further properties of the code *)

(** ** Keys of several parts *)

Lemma is_empty_false s : Str.is_empty s = false <-> s <> EmptyString.
Proof. destruct s; simpl; split; congruence. Qed.

Lemma is_empty_false_iff_not s : Str.is_empty s = true <-> s = EmptyString.
Proof. destruct s; simpl; split; congruence. Qed.

Lemma Split_concat sep a b :
  Str.Split sep (a +:+ String sep b) = Str.Split sep a ++ Str.Split sep b.
Proof.
  induction a as [|c r IH]; simpl.
  - now rewrite Ascii.eqb_refl.
  - destruct (Ascii.eqb c sep); [now rewrite IH|].
    rewrite IH. destruct (Str.Split sep r) eqn:E; [|reflexivity].
    now destruct (Split_nonempty sep r).
Qed.

Lemma append_assoc a b c : (a +:+ b) +:+ c = a +:+ (b +:+ c).
Proof.
  induction a as [|x a IH]; [reflexivity|].
  change (String x ((a +:+ b) +:+ c) = String x (a +:+ b +:+ c)). now rewrite IH.
Qed.

Lemma Join_app sep l1 l2 :
  l1 <> [] -> l2 <> [] ->
  Str.Join sep (l1 ++ l2) = Str.Join sep l1 +:+ sep +:+ Str.Join sep l2.
Proof.
  intros H1 H2. induction l1 as [|p [|q rest] IH]; [congruence| |].
  - destruct l2; [congruence|reflexivity].
  - specialize (IH ltac:(discriminate)).
    change (Str.Join sep ((p :: q :: rest) ++ l2))
      with (p +:+ sep +:+ Str.Join sep ((q :: rest) ++ l2)).
    rewrite IH.
    change (Str.Join sep (p :: q :: rest))
      with (p +:+ sep +:+ Str.Join sep (q :: rest)).
    now rewrite !append_assoc.
Qed.

Lemma lcfirst_all_app l1 l2 :
  lcfirst_all (l1 ++ l2) =
    match lcfirst_all l1, lcfirst_all l2 with
    | Some l1', Some l2' => Some (l1' ++ l2')
    | _, _ => None
    end.
Proof.
  induction l1 as [|p rest IH]; simpl.
  - now destruct (lcfirst_all l2).
  - destruct (lcfirst p); [|reflexivity]. rewrite IH.
    destruct (lcfirst_all rest), (lcfirst_all l2); reflexivity.
Qed.

Lemma lcfirst_all_nonempty parts parts' :
  lcfirst_all parts = Some parts' -> parts <> [] -> parts' <> [].
Proof. intros H. exact (proj1 (proj2 (lcfirst_all_fixed _ _ H))). Qed.

Lemma lcfirst_all_nodot parts parts' :
  lcfirst_all parts = Some parts' ->
  Forall (fun p => Spec.all Spec.notDot p = true) parts ->
  Forall (fun p => Spec.all Spec.notDot p = true) parts'.
Proof. intros H. exact (proj2 (proj2 (lcfirst_all_fixed _ _ H))). Qed.

Lemma upper_concat a b ua ub :
  Normalize UpperSnakeCaseNormalizer a = Some ua ->
  Normalize UpperSnakeCaseNormalizer b = Some ub ->
  Normalize UpperSnakeCaseNormalizer (a +:+ "." +:+ b)
  = Some (ua +:+ "_" +:+ ub).
Proof.
  unfold Normalize. intros [= <-] [= <-]. f_equal.
  change (a +:+ "." +:+ b) with (a +:+ String "." b).
  rewrite Split_concat, List.map_app.
  apply Join_app.
  - destruct (Str.Split "." a) eqn:Ea; [now destruct (Split_nonempty "." a)|].
    discriminate.
  - destruct (Str.Split "." b) eqn:Eb; [now destruct (Split_nonempty "." b)|].
    discriminate.
Qed.

Lemma camel_concat a b :
  Normalize CamelCaseNormalizer (a +:+ "." +:+ b) =
    match Normalize CamelCaseNormalizer a, Normalize CamelCaseNormalizer b with
    | Some ca, Some cb => Some (ca +:+ "." +:+ cb)
    | _, _ => None
    end.
Proof.
  unfold Normalize.
  change (a +:+ "." +:+ b) with (a +:+ String "." b).
  rewrite Split_concat, lcfirst_all_app.
  destruct (lcfirst_all (Str.Split "." a)) as [la|] eqn:Ea; [|reflexivity].
  destruct (lcfirst_all (Str.Split "." b)) as [lb|] eqn:Eb; [|reflexivity].
  f_equal. apply Join_app.
  - exact (lcfirst_all_nonempty _ _ Ea (Split_nonempty "." a)).
  - exact (lcfirst_all_nonempty _ _ Eb (Split_nonempty "." b)).
Qed.

Lemma camel_split k k' :
  Normalize CamelCaseNormalizer k = Some k' ->
  exists parts, lcfirst_all (Str.Split "." k) = Some parts
                /\ Str.Split "." k' = parts.
Proof.
  unfold Normalize.
  destruct (lcfirst_all (Str.Split "." k)) as [parts|] eqn:E; [|discriminate].
  intros [= <-]. exists parts. split; [reflexivity|].
  apply Split_Join.
  - exact (lcfirst_all_nonempty _ _ E (Split_nonempty "." k)).
  - exact (lcfirst_all_nodot _ _ E (Split_parts_nodot k)).
Qed.

(** X1.  The environment source with the upper-snake convention reads,
    for the key [a.b] that [concatenateKeys] forms of the key [a] of a
    struct and the key [b] of one of its fields, the variable named by
    the normalized [a], an underscore and the normalized [b]. *)
Theorem env_nested_key_variable :
  forall (W : World) (a b ua ub : string),
    Normalize UpperSnakeCaseNormalizer a = Some ua ->
    Normalize UpperSnakeCaseNormalizer b = Some ub ->
    readEnvKey W (mkEnvSource UpperSnakeCaseNormalizer) (concatenateKeys [a; b])
    = Some (Getenv W (ua +:+ "_" +:+ ub)).
Proof.
  intros W a b ua ub Ha Hb. unfold readEnvKey, concatenateKeys.
  cbn [env_normalizer Str.Join].
  now rewrite (upper_concat _ _ _ _ Ha Hb).
Qed.

Lemma env_nested_key_variable_witness :
  readEnvKey (Ex.world (<["DATABASE_MAX_CONNS" := "8"]> ∅))
    (mkEnvSource UpperSnakeCaseNormalizer)
    (concatenateKeys ["database"; "maxConns"])
  = Some (Getenv (Ex.world (<["DATABASE_MAX_CONNS" := "8"]> ∅))
            ("DATABASE" +:+ "_" +:+ "MAX_CONNS")).
Proof.
  apply (env_nested_key_variable _ "database" "maxConns"); reflexivity.
Defined.

(** X2.  The camel-case normalizer works part by part: the key [a.b] is
    normalized exactly when [a] and [b] are, to the two normalized keys
    joined by a dot, and it panics when one of them does. *)
Theorem camel_normalizes_part_by_part :
  forall a b : string,
    Normalize CamelCaseNormalizer (concatenateKeys [a; b]) =
      match Normalize CamelCaseNormalizer a, Normalize CamelCaseNormalizer b with
      | Some ca, Some cb => Some (ca +:+ "." +:+ cb)
      | _, _ => None
      end.
Proof. intros a b. apply camel_concat. Qed.

(** X3.  What a normalized key never contains: the snake form has no
    upper-case letter, the upper-snake form has neither a lower-case
    letter nor a dot, and every part of the camel form is non-empty and
    does not begin with an upper-case letter. *)
Theorem normalized_key_shape :
  forall (n : KeyNormalizer) (k k1 : string),
    Normalize n k = Some k1 ->
    match n with
    | SnakeCaseNormalizer => Spec.all Spec.notUpper k1 = true
    | UpperSnakeCaseNormalizer =>
        Spec.all Spec.notLower k1 = true /\ Spec.all Spec.notDot k1 = true
    | CamelCaseNormalizer =>
        Forall (fun part => exists c r, part = String c r /\ Str.is_upper c = false)
               (Str.Split "." k1)
        /\ length (Str.Split "." k1) = length (Str.Split "." k)
    end.
Proof.
  intros [] k k1 H.
  - injection H as <-. unfold camelToSnake. apply ToLower_noupper.
  - injection H as <-. apply upper_snake_shape.
  - destruct (camel_split _ _ H) as (parts & Hl & ->).
    clear H. revert parts Hl.
    induction (Str.Split "." k) as [|p rest IH]; intros parts Hl.
    + injection Hl as <-. split; constructor.
    + simpl in Hl. destruct p as [|c r]; [discriminate|]. simpl in Hl.
      destruct (lcfirst_all rest) as [rest'|]; [|discriminate].
      injection Hl as <-. destruct (IH rest' eq_refl) as [IH1 IH2].
      split; [constructor; [|exact IH1]|simpl; now rewrite IH2].
      exists (Str.to_lower c), r. split; [reflexivity|apply to_lower_not_upper].
Qed.

Lemma normalized_key_shape_witness :
  Spec.all Spec.notLower "HTTP_SERVER_PORT" = true
  /\ Spec.all Spec.notDot "HTTP_SERVER_PORT" = true.
Proof.
  exact (normalized_key_shape UpperSnakeCaseNormalizer
           "httpServer.port" "HTTP_SERVER_PORT" eq_refl).
Defined.

(** ** The prefix adapter on a map source *)

Lemma getKeyFromMap_concat s m a b m' :
  normalizer s = Some CamelCaseNormalizer ->
  a <> EmptyString ->
  b <> EmptyString ->
  getKeyFromMap s m a = Some (VMap m') ->
  getKeyFromMap s m (a +:+ "." +:+ b) = getKeyFromMap s m' b.
Proof.
  intros Hn Ha Hb. unfold getKeyFromMap.
  apply is_empty_false in Ha, Hb. rewrite Ha, Hb, Hn.
  assert (Hab : Str.is_empty (a +:+ "." +:+ b) = false)
    by (destruct a; [discriminate|reflexivity]).
  rewrite Hab, camel_concat.
  destruct (Normalize CamelCaseNormalizer a) as [ca|] eqn:Ea; [|discriminate].
  intros [= Hw].
  destruct (Normalize CamelCaseNormalizer b) as [cb|] eqn:Eb; [|reflexivity].
  f_equal. change (ca +:+ "." +:+ cb) with (ca +:+ String "." cb).
  now rewrite Split_concat, walk_app, Hw.
Qed.

Lemma getKeyFromMap_same s s' m k :
  normalizer s = normalizer s' -> getKeyFromMap s m k = getKeyFromMap s' m k.
Proof. unfold getKeyFromMap. now intros ->. Qed.

Lemma fieldItems_same s s' m tgt fs :
  normalizer s = normalizer s' ->
  forall i, fieldItems s m tgt fs i = fieldItems s' m tgt fs i.
Proof.
  intros Hn. induction fs as [|field rest IH]; intros i; [reflexivity|].
  simpl. rewrite (getKeyFromMap_same s s' _ _ Hn), !IH. reflexivity.
Qed.

Lemma mapStep_same W D s s' item st :
  typ s = typ s' -> normalizer s = normalizer s' ->
  mapStep W D s item st = mapStep W D s' item st.
Proof.
  intros Ht Hn. unfold mapStep. rewrite Ht.
  destruct (source item); try reflexivity;
    destruct (unwrapTarget (target item) st) as [[tgt st1]|]; try reflexivity;
    destruct (convert W _ (elemType tgt)); try reflexivity;
    destruct (elemType tgt); try reflexivity.
  destruct (readOnly tgt); [reflexivity|].
  destruct (ReadConfig (declOf D name)); [reflexivity|].
  now rewrite (fieldItems_same s s' _ _ _ Hn).
Qed.

Lemma readMapPrimitiveLoop_same W D s s' fuel :
  typ s = typ s' -> normalizer s = normalizer s' ->
  forall queue st,
    readMapPrimitiveLoop fuel W D s queue st
    = readMapPrimitiveLoop fuel W D s' queue st.
Proof.
  intros Ht Hn. induction fuel as [|fuel IH]; intros queue st; [reflexivity|].
  destruct queue as [|item queue]; [reflexivity|].
  rewrite !readMapPrimitiveLoop_cons, (mapStep_same W D s s' item st Ht Hn).
  destruct (mapStep W D s' item st); [apply IH|reflexivity|reflexivity].
Qed.

(** X4.  On a map source with the camel convention, the source
    [PrefixSourceWith prefix s] answers [ReadKey] as the source does
    whose tree is the mapping [s] holds at [prefix]: the lookup of
    [prefix.k] is the lookup of [k] below the prefix. *)
Theorem prefixed_map_source_is_submapping :
  forall (fuel : nat) (W : World) (D : Decls) (s : MapSource)
         (prefix k : string) (m' : list (string * value))
         (tgt : Target) (st : Store),
    normalizer s = Some CamelCaseNormalizer ->
    prefix <> EmptyString ->
    k <> EmptyString ->
    getKeyFromMap s (data s) prefix = Some (VMap m') ->
    Source_ReadKey fuel W D (PrefixSourceWith prefix (OfMapSource s)) k tgt st
    = Source_ReadKey fuel W D
        (OfMapSource (mkMapSource (typ s) m' (normalizer s))) k tgt st.
Proof.
  intros fuel W D s prefix k m' tgt st Hn Hp Hk Hsub.
  cbn [Source_ReadKey]. unfold MapSource_ReadKey.
  destruct tgt as [| |p]; try reflexivity.
  rewrite (getKeyFromMap_concat s (data s) prefix k m' Hn Hp Hk Hsub).
  cbn [data].
  rewrite (getKeyFromMap_same (mkMapSource (typ s) m' (normalizer s)) s)
    by reflexivity.
  destruct (getKeyFromMap s m' k) as [val|]; [|reflexivity].
  unfold readMapPrimitive. apply readMapPrimitiveLoop_same; reflexivity.
Qed.

Lemma prefixed_map_source_is_submapping_witness :
  Source_ReadKey 0 (Ex.world ∅) Ex.serverDecls
    (PrefixSourceWith "server"
       (OfMapSource (Ex.jsonSource [("server", VMap [("host", VString "h")])])))
    "host" (Pointer (Ex.ptrTo TString)) Ex.oneCell
  = Source_ReadKey 0 (Ex.world ∅) Ex.serverDecls
      (OfMapSource
         (mkMapSource JSONSourceType [("host", VString "h")]
            (Some CamelCaseNormalizer)))
      "host" (Pointer (Ex.ptrTo TString)) Ex.oneCell.
Proof.
  apply (prefixed_map_source_is_submapping 0 (Ex.world ∅) Ex.serverDecls
           (Ex.jsonSource [("server", VMap [("host", VString "h")])])
           "server" "host" [("host", VString "h")]);
    [reflexivity|discriminate|discriminate|reflexivity].
Defined.

(** ** The source a custom reader is given *)

Lemma fieldItems_nil_normalizer s m tgt fs :
  normalizer s = None ->
  Exists (fun field => processStructField field <> EmptyString) fs ->
  forall i, fieldItems s m tgt fs i = None.
Proof.
  intros Hn. induction 1 as [field rest Hf|field rest _ IH]; intros i; simpl.
  - apply is_empty_false in Hf. rewrite Hf.
    unfold getKeyFromMap. now rewrite Hf, Hn.
  - destruct (Str.is_empty (processStructField field)) eqn:E; [apply IH|].
    unfold getKeyFromMap. now rewrite E, Hn.
Qed.

(** X5.  The map decoder gives a [ReadConfig] method a [MapSource]
    without a normalizer.  On such a source [ReadKey] with a key that is
    not empty panics, and so does [Read] into a struct without a
    [ReadConfig] that has a field the decoder does not skip; only the
    empty key, which is answered without the normalizer, can be read. *)
Theorem source_without_normalizer_panics :
  forall (fuel : nat) (W : World) (D : Decls) (t : SourceType)
         (m : list (string * value)) (p : Ptr) (st : Store),
    (forall k, k <> EmptyString ->
       Source_ReadKey fuel W D (OfMapSource (mkMapSource t m None)) k
         (Pointer p) st = Some Panics)
    /\ (forall name,
          elemType p = TStruct name ->
          ReadConfig (declOf D name) = None ->
          Exists (fun field => processStructField field <> EmptyString)
                 (fields (declOf D name)) ->
          Source_Read fuel W D (OfMapSource (mkMapSource t m None))
            (Pointer p) st = Some Panics)
    /\ Source_ReadKey fuel W D (OfMapSource (mkMapSource t m None)) EmptyString
         (Pointer p) st
       = readMapPrimitive W D (mkMapSource t m None) (VMap m) p st.
Proof.
  intros fuel W D t m p st. split; [|split].
  - intros k Hk%is_empty_false. cbn [Source_ReadKey]. unfold MapSource_ReadKey.
    unfold getKeyFromMap. now rewrite Hk.
  - intros name Hty Hreader Hfields.
    cbn [Source_Read]. unfold MapSource_Read. rewrite Hty. cbn [isStruct data].
    unfold readMapPrimitive. rewrite readMapPrimitiveLoop_cons.
    unfold mapStep. cbn [source target callback].
    unfold unwrapTarget. rewrite Hty. cbn [convert]. rewrite Hty.
    destruct (readOnly p); [reflexivity|]. rewrite Hreader.
    now rewrite fieldItems_nil_normalizer.
  - reflexivity.
Qed.

Lemma source_without_normalizer_panics_witness :
  Source_ReadKey 0 (Ex.world ∅) Ex.serverDecls
    (OfMapSource (mkMapSource JSONSourceType [("host", VString "h")] None))
    "host" (Pointer (Ex.ptrTo TString)) Ex.oneCell
  = Some Panics.
Proof.
  apply (proj1 (source_without_normalizer_panics 0 (Ex.world ∅) Ex.serverDecls
                  JSONSourceType [("host", VString "h")] (Ex.ptrTo TString)
                  Ex.oneCell)).
  discriminate.
Defined.

(** ** The prefix of a reader at the root of the environment decoder *)

Lemma upper_empty : Normalize UpperSnakeCaseNormalizer EmptyString = Some EmptyString.
Proof. reflexivity. Qed.

(** X6.  [EnvSource.Read] starts its queue with the empty key, so that a
    [ReadConfig] of the root struct receives [PrefixSourceWith] with the
    empty prefix.  That source puts a dot before every key: with the
    upper-snake convention [ReadKey k] into a string reads the variable
    named by an underscore and the normalized [k], not the variable of
    [k]; with the camel convention it panics. *)
Theorem empty_prefix_adds_separator :
  forall (fuel : nat) (W : World) (D : Decls) (k uk : string) (l : loc) (st : Store),
    Normalize UpperSnakeCaseNormalizer k = Some uk ->
    Source_ReadKey (S (S fuel)) W D
      (PrefixSourceWith EmptyString (OfEnvSource (mkEnvSource UpperSnakeCaseNormalizer)))
      k (Pointer (mkPtr l TString false)) st
    = Some (Returns None (store l (DString (Getenv W ("_" +:+ uk))) st))
    /\ Source_ReadKey (S fuel) W D
         (PrefixSourceWith EmptyString (OfEnvSource (mkEnvSource CamelCaseNormalizer)))
         k (Pointer (mkPtr l TString false)) st
       = Some Panics.
Proof.
  intros fuel W D k uk l st Hk. split.
  - cbn [Source_ReadKey]. unfold EnvSource_ReadKey, readKey.
    rewrite readKeyLoop_cons. unfold envStep. cbn [envTarget key].
    unfold unwrapTarget. cbn [elemType].
    unfold readEnvKey. cbn [env_normalizer].
    rewrite (upper_concat EmptyString k EmptyString uk upper_empty Hk).
    cbn [readEnvPrimitive elemType setElem readOnly addr].
    reflexivity.
  - cbn [Source_ReadKey]. unfold EnvSource_ReadKey, readKey.
    rewrite readKeyLoop_cons. unfold envStep. cbn [envTarget key].
    unfold unwrapTarget. cbn [elemType].
    unfold readEnvKey. cbn [env_normalizer].
    rewrite camel_concat. reflexivity.
Qed.

Lemma empty_prefix_adds_separator_witness :
  Source_ReadKey 2 (Ex.world (<["_HOST" := "h"]> (<["HOST" := "g"]> ∅))) Ex.serverDecls
    (PrefixSourceWith EmptyString (OfEnvSource (mkEnvSource UpperSnakeCaseNormalizer)))
    "host" (Pointer (mkPtr (Loc 0 []) TString false)) Ex.oneCell
  = Some (Returns None
            (store (Loc 0 [])
               (DString (Getenv (Ex.world (<["_HOST" := "h"]> (<["HOST" := "g"]> ∅)))
                           ("_" +:+ "HOST")))
               Ex.oneCell)).
Proof.
  apply (proj1 (empty_prefix_adds_separator 0
                  (Ex.world (<["_HOST" := "h"]> (<["HOST" := "g"]> ∅)))
                  Ex.serverDecls "host" "HOST" (Loc 0 []) Ex.oneCell eq_refl)).
Defined.

(** ** Slices of the environment source *)

Lemma parseBool_no_panic val : parseBool val <> Panic.
Proof.
  unfold parseBool.
  destruct (_ || _); [discriminate|]. destruct (_ || _); discriminate.
Qed.



Lemma alter_middle {A} (f : A -> A) (l1 l2 : list A) (x : A) :
  alter f (length l1) (l1 ++ x :: l2) = l1 ++ f x :: l2.
Proof.
  rewrite alter_app_r_alt by lia. now rewrite Nat.sub_diag.
Qed.

Lemma insert_middle {A} (l1 l2 : list A) (x y : A) :
  <[length l1 := y]> (l1 ++ x :: l2) = l1 ++ y :: l2.
Proof.
  rewrite insert_app_r_alt by lia. now rewrite Nat.sub_diag.
Qed.

Lemma nth_middle_default {A} (l1 l2 : list A) (x d : A) :
  nth (length l1) (l1 ++ x :: l2) d = x.
Proof. induction l1; simpl; auto. Qed.



Lemma store_element pre filled e rest tail v ms fs :
  store (Loc (length pre) [length filled]) v
    (mkStore (pre ++ DArray (filled ++ e :: rest) :: tail) ms fs)
  = mkStore (pre ++ DArray (filled ++ v :: rest) :: tail) ms fs.
Proof.
  unfold store. cbn [cell path cells maps flags].
  rewrite alter_middle. cbn [dset].
  now rewrite ?nth_middle_default, insert_middle.
Qed.






(** ** The fields of a struct target *)

Lemma envFieldItems_In itemKey tgt fs : forall j item,
  In item (envFieldItems itemKey tgt fs j) <->
  exists i field,
    fs !! i = Some field
    /\ processStructField field <> EmptyString
    /\ item = mkEnvItem (absoluteKey itemKey (processStructField field))
                (fieldPtr tgt (j + i) field).
Proof.
  induction fs as [|f rest IH]; intros j item.
  - simpl. split; [tauto|]. intros (i & field & H & _). now destruct i.
  - cbn [envFieldItems].
    destruct (Str.is_empty (processStructField f)) eqn:E.
    + rewrite IH. split.
      * intros (i & field & Hi & Hk & ->). exists (S i), field.
        repeat split; [exact Hi|exact Hk|]. now rewrite Nat.add_succ_r.
      * intros (i & field & Hi & Hk & ->). destruct i as [|i].
        -- injection Hi as <-. apply is_empty_false in Hk. congruence.
        -- exists i, field. repeat split; [exact Hi|exact Hk|].
           now rewrite Nat.add_succ_r.
    + cbn [In]. rewrite IH. split.
      * intros [<-|(i & field & Hi & Hk & ->)].
        -- exists 0, f. rewrite Nat.add_0_r.
           repeat split. now apply is_empty_false.
        -- exists (S i), field.
           repeat split; [exact Hi|exact Hk|]. now rewrite Nat.add_succ_r.
      * intros (i & field & Hi & Hk & ->). destruct i as [|i].
        -- injection Hi as <-. left. now rewrite Nat.add_0_r.
        -- right. exists i, field. repeat split; [exact Hi|exact Hk|].
           now rewrite Nat.add_succ_r.
Qed.

(** X9.  For a struct without a [ReadConfig] the loop of [readKey]
    enqueues exactly the fields [processStructField] gives a key: each
    once, with a pointer to the field at its index, read-only when its
    name is unexported, and under the key of the struct, a dot and the
    key of the field, or the key of the field alone at the root.  A
    field has a key exactly when its tag is not [-] and it is exported,
    or embedded with a struct or pointer-to-struct type. *)
Theorem env_struct_fields_visited :
  forall (itemKey : string) (tgt : loc) (fs : list StructField),
    (forall item,
       In item (envFieldItems itemKey tgt fs 0) <->
       exists i field,
         fs !! i = Some field
         /\ processStructField field <> EmptyString
         /\ item = mkEnvItem (absoluteKey itemKey (processStructField field))
                     (fieldPtr tgt i field))
    /\ (forall field,
          Name field <> EmptyString ->
          (processStructField field <> EmptyString <->
           Tag field <> "-"
           /\ if Anonymous field
              then isStruct (match Type_ field with TPtr e => e | t => t end) = true
              else IsExported field = true)).
Proof.
  intros itemKey tgt fs. split.
  - intros item. apply (envFieldItems_In itemKey tgt fs 0 item).
  - intros field Hname. unfold processStructField.
    destruct (String.eqb_spec (Tag field) "-") as [Htag|Htag].
    + split; [congruence|tauto].
    + assert (Hnamed : (if Str.is_empty (Tag field) then Name field else Tag field)
                       <> EmptyString).
      { destruct (Tag field) eqn:E; [exact Hname|discriminate]. }
      destruct (Anonymous field).
      * destruct (isStruct _); cbn [negb]; split; try tauto; try congruence.
        intros [_ H]. discriminate.
      * destruct (IsExported field); cbn [negb]; split; try tauto; try congruence.
        intros [_ H]. discriminate.
Qed.

Lemma env_struct_fields_visited_witness :
  processStructField (mkField "base" EmptyString true (TPtr (TStruct "base")))
  <> EmptyString.
Proof.
  apply (proj2 (env_struct_fields_visited EmptyString (Loc 0 []) [])
           (mkField "base" EmptyString true (TPtr (TStruct "base")))).
  - discriminate.
  - split; [discriminate|reflexivity].
Defined.

Lemma fieldItems_In s m tgt fs : forall j items item,
  fieldItems s m tgt fs j = Some items ->
  (In item items <->
   exists i field v,
     fs !! i = Some field
     /\ processStructField field <> EmptyString
     /\ getKeyFromMap s m (processStructField field) = Some v
     /\ v <> VNil
     /\ item = mkMapItem v (fieldPtr tgt (j + i) field) cbNil).
Proof.
  induction fs as [|f rest IH]; intros j items item H.
  - injection H as <-. split; [intros []|].
    intros (i & field & v & Hi & _). now destruct i.
  - cbn [fieldItems] in H.
    destruct (Str.is_empty (processStructField f)) eqn:E.
    + rewrite (IH _ _ item H). split.
      * intros (i & field & v & Hi & Hk & Hv & Hn & ->). exists (S i), field, v.
        repeat split; try assumption. now rewrite Nat.add_succ_r.
      * intros (i & field & v & Hi & Hk & Hv & Hn & ->). destruct i as [|i].
        -- injection Hi as <-. apply is_empty_false in Hk. congruence.
        -- exists i, field, v. repeat split; try assumption.
           now rewrite Nat.add_succ_r.
    + destruct (getKeyFromMap s m (processStructField f)) as [v0|] eqn:Ev;
        [|discriminate].
      destruct (fieldItems s m tgt rest (S j)) as [items0|] eqn:Er; [|discriminate].
      specialize (IH _ _ item Er).
      assert (Hrest :
        In item items0 <->
        exists i field v,
          (f :: rest) !! S i = Some field
          /\ processStructField field <> EmptyString
          /\ getKeyFromMap s m (processStructField field) = Some v
          /\ v <> VNil
          /\ item = mkMapItem v (fieldPtr tgt (j + S i) field) cbNil).
      { rewrite IH. split; intros (i & field & v & Hi & Hk & Hv & Hn & ->);
          exists i, field, v; repeat split; try assumption;
          now rewrite Nat.add_succ_r. }
      assert (Hhead : forall i field v,
        (f :: rest) !! i = Some field ->
        getKeyFromMap s m (processStructField field) = Some v ->
        v <> VNil ->
        item = mkMapItem v (fieldPtr tgt (j + i) field) cbNil ->
        (i = 0 /\ field = f /\ v = v0
         /\ item = mkMapItem v0 (fieldPtr tgt j f) cbNil)
        \/ exists i', i = S i').
      { intros [|i] field v Hi Hv Hn ->; [|right; now exists i].
        injection Hi as <-. left. rewrite Ev in Hv. injection Hv as <-.
        now rewrite Nat.add_0_r. }
      destruct v0.
      1: { injection H as <-. rewrite Hrest. split.
           - intros (i & field & v & Hi & Hk & Hv & Hn & ->).
             exists (S i), field, v. repeat split; assumption.
           - intros (i & field & v & Hi & Hk & Hv & Hn & Hitem).
             destruct (Hhead i field v Hi Hv Hn Hitem)
               as [(-> & -> & -> & _)|[i' ->]]; [congruence|].
             exists i', field, v. repeat split; assumption. }
      all: injection H as <-; cbn [In]; rewrite Hrest; split;
        [ intros [<-|(i & field & v & Hi & Hk & Hv & Hn & ->)];
          [ eexists 0, f, _; rewrite Nat.add_0_r;
            repeat split; [now apply is_empty_false|exact Ev|discriminate]
          | exists (S i), field, v; repeat split; assumption ]
        | intros (i & field & v & Hi & Hk & Hv & Hn & Hitem);
          destruct (Hhead i field v Hi Hv Hn Hitem)
            as [(-> & -> & -> & ->)|[i' ->]];
          [ now left
          | right; exists i', field, v; repeat split; assumption ] ].
Qed.

Lemma fieldItems_None s m tgt fs : forall j,
  fieldItems s m tgt fs j = None <->
  Exists (fun field => processStructField field <> EmptyString
                       /\ getKeyFromMap s m (processStructField field) = None) fs.
Proof.
  induction fs as [|f rest IH]; intros j.
  - simpl. split; [discriminate|]. intros H. inversion H.
  - cbn [fieldItems]. rewrite Exists_cons.
    destruct (Str.is_empty (processStructField f)) eqn:E.
    + rewrite IH. split; [tauto|]. intros [[H _]|H]; [|exact H].
      apply is_empty_false in H. congruence.
    + apply is_empty_false in E.
      destruct (getKeyFromMap s m (processStructField f)) as [v|] eqn:Ev.
      * destruct (fieldItems s m tgt rest (S j)) as [items|] eqn:Er.
        -- split.
           ++ destruct v; discriminate.
           ++ intros [[_ H]|H]; [discriminate|].
              apply (IH (S j)) in H. congruence.
        -- split; [intros _; right; now apply (IH (S j))|reflexivity].
      * split; [intros _; left; now split|reflexivity].
Qed.

(** X10.  For a mapping decoded into a struct without a [ReadConfig],
    the map decoder enqueues exactly the fields that have a key and
    whose key, looked up in that mapping, gives a value that is not
    nil: a field without a value in the source is left as it is.  The
    step panics exactly when the lookup of some field's key does. *)
Theorem map_struct_fields_visited :
  forall (s : MapSource) (m : list (string * value)) (tgt : loc)
         (fs : list StructField),
    (forall items item,
       fieldItems s m tgt fs 0 = Some items ->
       (In item items <->
        exists i field v,
          fs !! i = Some field
          /\ processStructField field <> EmptyString
          /\ getKeyFromMap s m (processStructField field) = Some v
          /\ v <> VNil
          /\ item = mkMapItem v (fieldPtr tgt i field) cbNil))
    /\ (fieldItems s m tgt fs 0 = None <->
        Exists (fun field =>
                  processStructField field <> EmptyString
                  /\ getKeyFromMap s m (processStructField field) = None) fs).
Proof.
  intros s m tgt fs. split.
  - intros items item H. apply (fieldItems_In s m tgt fs 0 items item H).
  - apply fieldItems_None.
Qed.

Lemma map_struct_fields_visited_witness :
  In (mkMapItem (VString "h")
        (fieldPtr (Loc 0 []) 0 (mkField "Host" EmptyString false TString)) cbNil)
     [mkMapItem (VString "h")
        (fieldPtr (Loc 0 []) 0 (mkField "Host" EmptyString false TString)) cbNil].
Proof.
  apply (proj1 (map_struct_fields_visited (Ex.jsonSource [])
                  [("host", VString "h")] (Loc 0 [])
                  [mkField "Host" EmptyString false TString;
                   mkField "Port" EmptyString false TInt])
           _ _ eq_refl).
  exists 0, (mkField "Host" EmptyString false TString), (VString "h").
  repeat split; discriminate.
Defined.

(** ** Embedded structs with an unexported name *)

Lemma envStep_readOnlyStruct W D s item st :
  readOnlyStruct (envTarget item) = true ->
  envStep W D s item st = Some IterPanic.
Proof.
  unfold readOnlyStruct. intros [Hro Hty]%andb_true_iff.
  unfold envStep, unwrapTarget. rewrite Hro.
  destruct (elemType (envTarget item)) eqn:E; try discriminate.
  - reflexivity.
  - rewrite E, Hro. reflexivity.
Qed.

Lemma readKeyLoop_readOnlyStruct W D s fuel : forall queue st st',
  Exists (fun item => readOnlyStruct (envTarget item) = true) queue ->
  readKeyLoop fuel W D s queue st <> Some (Returns None st').
Proof.
  induction fuel as [|fuel IH]; intros queue st st' Hex; [discriminate|].
  destruct queue as [|item queue]; [inversion Hex|].
  rewrite readKeyLoop_cons.
  destruct (envStep W D s item st) as [[children st1|e st1|]|] eqn:E;
    try discriminate.
  apply IH. apply Exists_app. left.
  apply Exists_cons in Hex as [Hit|Hq]; [|exact Hq].
  rewrite (envStep_readOnlyStruct W D s item st Hit) in E. discriminate.
Qed.

Lemma embedded_readOnlyStruct field tgt i :
  Anonymous field = true ->
  IsExported field = false ->
  processStructField field <> EmptyString ->
  readOnlyStruct (fieldPtr tgt i field) = true.
Proof.
  intros Ha He Hk. unfold readOnlyStruct, fieldPtr. cbn [readOnly elemType].
  rewrite He. cbn [negb andb].
  unfold processStructField in Hk. rewrite Ha in Hk.
  destruct (String.eqb (Tag field) "-"); [congruence|].
  destruct (Type_ field) as [| | | | |e| | | |]; cbn [isStruct negb] in Hk;
    try congruence; reflexivity.
Qed.

(** X11.  A struct that embeds a struct type with an unexported name,
    by value or by pointer, cannot be decoded from the environment: the
    field is given a queue item, whose target is read-only, and the
    iteration that reaches it panics.  [ReadKey] into such a struct
    never returns without an error. *)
Theorem env_embedded_unexported_struct_not_decoded :
  forall (fuel : nat) (W : World) (D : Decls) (s : EnvSource) (k : string)
         (p : Ptr) (st : Store) (name : string) (field : StructField),
    elemType p = TStruct name ->
    ReadConfig (declOf D name) = None ->
    In field (fields (declOf D name)) ->
    Anonymous field = true ->
    IsExported field = false ->
    processStructField field <> EmptyString ->
    forall st', EnvSource_ReadKey fuel W D s k (Pointer p) st
                <> Some (Returns None st').
Proof.
  intros fuel W D s k p st name field Hty Hreader Hin Ha He Hk st'.
  unfold EnvSource_ReadKey, readKey.
  destruct fuel as [|fuel]; [discriminate|].
  rewrite readKeyLoop_cons. unfold envStep. cbn [envTarget key].
  unfold unwrapTarget. rewrite Hty. cbv beta iota. rewrite Hty.
  destruct (readOnly p); [discriminate|]. rewrite Hreader. cbn [app].
  apply readKeyLoop_readOnlyStruct.
  apply List.Exists_exists.
  apply list_elem_of_In, list_elem_of_lookup in Hin as [i Hi].
  exists (mkEnvItem (absoluteKey k (processStructField field))
            (fieldPtr (addr p) i field)).
  split.
  - apply (envFieldItems_In k (addr p) (fields (declOf D name)) 0).
    exists i, field. repeat split; [exact Hi|exact Hk].
  - cbn [envTarget]. now apply embedded_readOnlyStruct.
Qed.

Lemma env_embedded_unexported_struct_not_decoded_witness :
  EnvSource_ReadKey 8 (Ex.world ∅) embeddingDecls
    (mkEnvSource UpperSnakeCaseNormalizer) EmptyString
    (Pointer (Ex.ptrTo (TStruct "App"))) Ex.oneCell
  <> Some (Returns None Ex.oneCell).
Proof.
  apply (env_embedded_unexported_struct_not_decoded 8 (Ex.world ∅) embeddingDecls
           (mkEnvSource UpperSnakeCaseNormalizer) EmptyString
           (Ex.ptrTo (TStruct "App")) Ex.oneCell "App"
           (mkField "base" EmptyString true (TStruct "base")));
    try reflexivity.
  - vm_compute. left. reflexivity.
  - discriminate.
Defined.

(** ** The footprint of the map decoder *)

Lemma keeps_refl L M F c0 m0 f0 st : keeps L M F c0 m0 f0 st st.
Proof. unfold keeps. repeat apply conj; auto. Qed.

Lemma keeps_trans L M F c0 m0 f0 st1 st2 st3 :
  keeps L M F c0 m0 f0 st1 st2 -> keeps L M F c0 m0 f0 st2 st3 ->
  keeps L M F c0 m0 f0 st1 st3.
Proof.
  intros (A1 & A2 & A3 & A4 & A5 & A6) (B1 & B2 & B3 & B4 & B5 & B6).
  unfold keeps. repeat apply conj; try lia.
  - intros c Hc Hne. now rewrite B4, A4.
  - intros m Hm Hne. now rewrite B5, A5.
  - intros f Hf Hne. now rewrite B6, A6.
Qed.

Lemma keeps_fits L M F c0 m0 f0 st st' :
  fits L M F st -> keeps L M F c0 m0 f0 st st' -> fits L M F st'.
Proof. unfold fits, keeps. intros (? & ? & ?) (? & ? & ? & _). lia. Qed.

Lemma keeps_store L M F c0 m0 f0 l v st :
  targetFits L c0 l -> keeps L M F c0 m0 f0 st (store l v st).
Proof.
  intros Hl. unfold keeps, store. cbn [cells maps flags].
  rewrite length_alter. repeat apply conj; auto.
  intros c Hc Hne. apply list_lookup_alter_ne.
  destruct Hl as [Hl|Hl]; [congruence|lia].
Qed.

Lemma keeps_newCell L M F c0 m0 f0 d st :
  fits L M F st -> keeps L M F c0 m0 f0 st (snd (newCell d st)).
Proof.
  intros (HL & _). unfold keeps, newCell. cbn [snd cells maps flags].
  rewrite length_app. repeat apply conj; auto; try lia.
  intros c Hc _. apply lookup_app_l. lia.
Qed.

Lemma keeps_newMapObject L M F c0 m0 f0 st :
  fits L M F st -> keeps L M F c0 m0 f0 st (snd (newMapObject st)).
Proof.
  intros (_ & HM & _). unfold keeps, newMapObject. cbn [snd cells maps flags].
  rewrite length_app. repeat apply conj; auto; try lia.
  intros m Hm _. apply lookup_app_l. lia.
Qed.

Lemma keeps_setFlag L M F c0 m0 f0 f st :
  f0 = Some f \/ F <= f -> keeps L M F c0 m0 f0 st (setFlag f st).
Proof.
  intros Hf. unfold keeps, setFlag. cbn [cells maps flags].
  rewrite length_insert. repeat apply conj; auto.
  intros f' Hlt Hne. apply list_lookup_insert_ne.
  destruct Hf as [Hf|Hf]; [congruence|lia].
Qed.

Lemma keeps_SetMapIndex L M F c0 m0 f0 m k v st :
  m0 = Some m \/ M <= m -> keeps L M F c0 m0 f0 st (SetMapIndex m k v st).
Proof.
  intros Hm. unfold keeps, SetMapIndex. cbn [cells maps flags].
  rewrite length_alter. repeat apply conj; auto.
  intros m' Hlt Hne. apply list_lookup_alter_ne.
  destruct Hm as [Hm|Hm]; [congruence|lia].
Qed.

Lemma keeps_complete L M F c0 m0 f0 cb st :
  callbackFits M F m0 f0 cb -> keeps L M F c0 m0 f0 st (complete cb st).
Proof.
  destruct cb as [|f|f m kp vp]; cbn [callbackFits complete]; intros H.
  - apply keeps_refl.
  - now apply keeps_setFlag.
  - destruct (getFlag f st); [now apply keeps_SetMapIndex|apply keeps_refl].
Qed.

Lemma complete_cells cb st : cells (complete cb st) = cells st.
Proof.
  destruct cb as [|f|f m kp vp]; cbn [complete]; try reflexivity.
  destruct (getFlag f st); reflexivity.
Qed.

Lemma store_length l v st : length (cells (store l v st)) = length (cells st).
Proof. unfold store. cbn [cells]. apply length_alter. Qed.

Lemma unwrap_keeps L M F c0 m0 f0 t : forall tgt st,
  fits L M F st -> targetFits L c0 tgt ->
  keeps L M F c0 m0 f0 st (snd (unwrap t tgt st))
  /\ targetFits L c0 (fst (fst (unwrap t tgt st)))
  /\ (cell tgt < length (cells st) ->
      cell (fst (fst (unwrap t tgt st))) < length (cells (snd (unwrap t tgt st)))).
Proof.
  induction t; intros tgt st Hfit Htgt;
    try (cbn [unwrap fst snd]; split; [apply keeps_refl|split; [exact Htgt|auto]]).
  cbn [unwrap].
  pose proof (keeps_newCell L M F c0 m0 f0 DZero st Hfit) as K1.
  unfold newCell in *. cbn [snd] in K1.
  set (st1 := mkStore (cells st ++ [DZero]) (maps st) (flags st)) in *.
  set (elemPtr := Loc (length (cells st)) []).
  pose proof (keeps_store L M F c0 m0 f0 tgt (DPtr elemPtr) st1 Htgt) as K2.
  pose proof (keeps_trans _ _ _ _ _ _ _ _ _ K1 K2) as K12.
  pose proof (keeps_fits _ _ _ _ _ _ _ _ Hfit K12) as Hfit2.
  assert (Hel : targetFits L c0 elemPtr)
    by (right; cbn [elemPtr cell]; destruct Hfit; lia).
  destruct (IHt elemPtr (store tgt (DPtr elemPtr) st1) Hfit2 Hel) as (K3 & T3 & B3).
  split; [exact (keeps_trans _ _ _ _ _ _ _ _ _ K12 K3)|]. split; [exact T3|].
  intros _. apply B3. unfold store. cbn [cells elemPtr cell st1].
  rewrite length_alter, length_app. cbn [length]. lia.
Qed.

Lemma unwrapTarget_keeps L M F c0 m0 f0 p st tgt st' :
  unwrapTarget p st = Some (tgt, st') ->
  fits L M F st -> targetFits L c0 (addr p) ->
  keeps L M F c0 m0 f0 st st'
  /\ targetFits L c0 (addr tgt)
  /\ (cell (addr p) < length (cells st) -> cell (addr tgt) < length (cells st')).
Proof.
  unfold unwrapTarget. intros H Hfit Htgt.
  pose proof (unwrap_keeps L M F c0 m0 f0 (elemType p) (addr p) st Hfit Htgt) as HU.
  destruct (elemType p);
    try (injection H as <- <-; split; [apply keeps_refl|split; [exact Htgt|auto]]).
  destruct (readOnly p); [discriminate|].
  destruct (unwrap (TPtr t) (addr p) st) as [[l t'] st''].
  injection H as <- <-. exact HU.
Qed.

Lemma entryItems_children K V newMap entries : forall st items st',
  entryItems K V newMap entries st = (items, st') ->
  Forall (fun item =>
            length (cells st) <= cellOf item < length (cells st')
            /\ match callback item with
               | cbNil => True
               | cbKey f => length (flags st) <= f
               | cbValue f m _ _ => length (flags st) <= f /\ m = newMap
               end) items.
Proof.
  induction entries as [|[k v] rest IH]; intros st items st' H.
  - injection H as <- <-. constructor.
  - pose proof (entryItems_spec K V newMap _ _ _ _ H) as (_ & Hst & _).
    cbn [entryItems] in H. unfold newFlag, newCell in H. cbn [cells maps flags] in H.
    destruct (entryItems K V newMap rest _) as [items0 st0] eqn:E.
    injection H as <- <-. specialize (IH _ _ _ E). cbn [cells flags] in IH.
    assert (Hlen : length (cells st0)
                   = length (cells st) + 2 * length ((k, v) :: rest)).
    { rewrite Hst. cbn [cells]. now rewrite length_app, length_replicate. }
    cbn [length] in Hlen.
    constructor; [|constructor].
    + unfold cellOf. cbn [target addr cell callback]. lia.
    + unfold cellOf. cbn [target addr cell callback].
      rewrite length_app. cbn [length]. lia.
    + eapply Forall_impl; [exact IH|]. intros item. cbn beta.
      rewrite !length_app. cbn [length]. intros [Hc Hcb]. split; [lia|].
      destruct (callback item); [exact I|lia|]. destruct Hcb. split; [lia|assumption].
Qed.

Lemma entryItems_keeps L M F c0 m0 f0 K V newMap entries st items st' :
  fits L M F st ->
  entryItems K V newMap entries st = (items, st') ->
  keeps L M F c0 m0 f0 st st'.
Proof.
  intros (HL & HM & HF) H.
  destruct (entryItems_spec _ _ _ _ _ _ _ H) as (_ & -> & _).
  unfold keeps. cbn [cells maps flags]. rewrite !length_app.
  repeat apply conj; auto; try lia.
  - intros c Hc _. apply lookup_app_l. lia.
  - intros f Hf _. apply lookup_app_l. lia.
Qed.

Lemma sliceItems_children elemT backing l :
  Forall (fun item => cellOf item = backing /\ callback item = cbNil)
         (sliceItems elemT backing l).
Proof.
  apply Forall_forall. intros item Hin. unfold sliceItems in Hin.
  apply elem_of_lookup_imap in Hin as (i & v & -> & _). split; reflexivity.
Qed.

Lemma fieldItems_children s m tgt fs items :
  fieldItems s m tgt fs 0 = Some items ->
  Forall (fun item => cellOf item = cell tgt /\ callback item = cbNil) items.
Proof.
  intros H. apply List.Forall_forall. intros item Hin.
  apply (fieldItems_In s m tgt fs 0 items item H) in Hin
    as (i & field & v & _ & _ & _ & _ & ->).
  split; reflexivity.
Qed.

Lemma mapStep_keeps_map L M F c0 m0 f0 (item : mapQueueItem) st K V entries
    tgt st1 children st' :
  fits L M F st1 ->
  keeps L M F c0 m0 f0 st st1 ->
  targetFits L c0 (addr tgt) ->
  callbackFits M F m0 f0 (callback item) ->
  (let '(newMap, st2) := newMapObject st1 in
   let '(items, st3) := entryItems K V newMap entries st2 in
   assign tgt (DMap newMap) st3 (fun st4 =>
     Continue items (complete (callback item) st4)))
  = Continue children st' ->
  keeps L M F c0 m0 f0 st st'
  /\ Forall (fun child =>
               targetFits L c0 (addr (target child))
               /\ callbackFits M F None None (callback child)
               /\ (cellOf item < length (cells st) ->
                   cellOf child < length (cells st')))
            children.
Proof.
  intros Hfit1 K1 T1 Hcb H.
  pose proof (keeps_newMapObject L M F c0 m0 f0 st1 Hfit1) as K2.
  unfold newMapObject in *. cbn [snd] in K2.
  set (st2 := mkStore (cells st1) (maps st1 ++ [[]]) (flags st1)) in *.
  pose proof (keeps_fits _ _ _ _ _ _ _ _ Hfit1 K2) as Hfit2.
  destruct (entryItems K V (length (maps st1)) entries st2) as [items st3] eqn:Ee.
  pose proof (entryItems_keeps L M F c0 m0 f0 _ _ _ _ _ _ _ Hfit2 Ee) as K3.
  unfold assign in H. destruct (readOnly tgt); [discriminate|].
  injection H as <- <-. split.
  - eapply keeps_trans; [exact K1|]. eapply keeps_trans; [exact K2|].
    eapply keeps_trans; [exact K3|].
    eapply keeps_trans; [apply keeps_store; exact T1|].
    apply keeps_complete; exact Hcb.
  - eapply Forall_impl; [exact (entryItems_children _ _ _ _ _ _ _ Ee)|].
    intros child [Hc Hb]. cbn [st2 cells flags] in Hc, Hb.
    destruct Hfit1 as (HL & HM & HF).
    split; [right; unfold cellOf in Hc; lia|]. split.
    + destruct (callback child); cbn [callbackFits]; [exact I|right; lia|].
      destruct Hb as [_ ->]. right; lia.
    + intros _. rewrite complete_cells, store_length. lia.
Qed.

Lemma mapStep_keeps W D s L M F c0 m0 f0 item st children st' :
  noReaders D ->
  fits L M F st ->
  targetFits L c0 (addr (target item)) ->
  callbackFits M F m0 f0 (callback item) ->
  mapStep W D s item st = Continue children st' ->
  keeps L M F c0 m0 f0 st st'
  /\ Forall (fun child =>
               targetFits L c0 (addr (target child))
               /\ callbackFits M F None None (callback child)
               /\ (cellOf item < length (cells st) ->
                   cellOf child < length (cells st')))
            children.
Proof.
  intros Hno Hfit Htgt Hcb H. unfold mapStep in H.
  destruct (source item) eqn:Esrc;
    [injection H as <- <-; split; [apply keeps_refl|constructor]|..].
  all: destruct (unwrapTarget (target item) st) as [[tgt st1]|] eqn:Eu;
    [|discriminate].
  all: destruct (unwrapTarget_keeps L M F c0 m0 f0 _ _ _ _ Eu Hfit Htgt)
    as (K1 & T1 & B1).
  all: pose proof (keeps_fits _ _ _ _ _ _ _ _ Hfit K1) as Hfit1.
  all: assert (Hdone : forall d,
         keeps L M F c0 m0 f0 st (complete (callback item) (store (addr tgt) d st1)))
    by (intros d; eapply keeps_trans; [exact K1|];
        eapply keeps_trans; [apply keeps_store; exact T1|];
        apply keeps_complete; exact Hcb).
  all: destruct (convert W _ (elemType tgt)) as [d|];
    [unfold assign in H; destruct (readOnly tgt); [discriminate|];
     injection H as <- <-; split; [apply Hdone|constructor]|].
  all: destruct (elemType tgt) eqn:Et;
    try (injection H as <- <-; split; [exact K1|constructor]).
  all: unfold assign in H.
  - (* a float into a bool *)
    destruct (readOnly tgt); [discriminate|].
    injection H as <- <-. split; [apply Hdone|constructor].
  - (* a string into a bool *)
    destruct (parseBool s0);
      try (injection H as <- <-; split; [exact K1|constructor]).
    destruct (readOnly tgt); [discriminate|].
    injection H as <- <-. split; [apply Hdone|constructor].
  - (* a slice *)
    unfold newCell in H. destruct (readOnly tgt); [discriminate|].
    injection H as <- <-.
    pose proof (keeps_newCell L M F c0 m0 f0
                  (DArray (replicate (length l) DZero)) st1 Hfit1) as K2.
    unfold newCell in K2. cbn [snd] in K2.
    split.
    + eapply keeps_trans; [exact K1|]. eapply keeps_trans; [exact K2|].
      eapply keeps_trans; [apply keeps_store; exact T1|].
      apply keeps_complete; exact Hcb.
    + eapply Forall_impl; [apply sliceItems_children|].
      intros child [Hc Hb]. unfold cellOf in Hc. rewrite Hb.
      split; [right; rewrite Hc; destruct Hfit1; lia|]. split; [exact I|].
      intros _. unfold cellOf. rewrite Hc.
      rewrite complete_cells, store_length. cbn [cells].
      rewrite length_app. cbn [length]. lia.
  - (* a mapping into a map *)
    eapply mapStep_keeps_map; eassumption.
  - (* a mapping into a struct *)
    destruct (readOnly tgt); [discriminate|]. rewrite Hno in H.
    destruct (fieldItems s m (addr tgt) (fields (declOf D name)) 0)
      as [items|] eqn:Ef; [|discriminate].
    injection H as <- <-. split.
    + eapply keeps_trans; [exact K1|]. apply keeps_complete; exact Hcb.
    + eapply Forall_impl; [exact (fieldItems_children _ _ _ _ _ Ef)|].
      intros child [Hc Hb]. unfold cellOf in Hc. rewrite Hb.
      split; [destruct T1 as [T1|T1]; [left|right]; rewrite Hc; exact T1|].
      split; [exact I|].
      intros Hlt. unfold cellOf. rewrite Hc, complete_cells. exact (B1 Hlt).
  - (* the nil map into a map *)
    eapply mapStep_keeps_map; eassumption.
Qed.

Lemma mapStep_no_error W D s item st e st' :
  noReaders D -> mapStep W D s item st <> ReturnErr e st'.
Proof.
  intros Hno H. apply mapStep_error in H.
  destruct H as (name & reader & src & l & st1 & st2 & Hr & _).
  rewrite Hno in Hr. discriminate.
Qed.

Lemma mapLoop_keeps W D s L M F c0 :
  noReaders D ->
  forall fuel queue st err st',
    fits L M F st ->
    Forall (fun item => targetFits L c0 (addr (target item))
                        /\ callbackFits M F None None (callback item)) queue ->
    readMapPrimitiveLoop fuel W D s queue st = Some (Returns err st') ->
    err = None /\ keeps L M F c0 None None st st'.
Proof.
  intros Hno. induction fuel as [|fuel IH]; intros queue st err st' Hfit Hq H;
    [discriminate|].
  destruct queue as [|item queue].
  - injection H as <- <-. split; [reflexivity|apply keeps_refl].
  - rewrite readMapPrimitiveLoop_cons in H.
    apply Forall_cons in Hq as [[Ht Hc] Hq].
    destruct (mapStep W D s item st) as [children st1|e st1|] eqn:E;
      [|now destruct (mapStep_no_error _ _ _ _ _ _ _ Hno E)|discriminate].
    destruct (mapStep_keeps _ _ _ _ _ _ _ _ _ _ _ _ _ Hno Hfit Ht Hc E) as [K1 Hch].
    apply IH in H; [|exact (keeps_fits _ _ _ _ _ _ _ _ Hfit K1)|].
    2: { apply Forall_app. split; [exact Hq|].
         eapply Forall_impl; [exact Hch|].
         intros child (? & ? & _). split; assumption. }
    destruct H as [-> K2].
    split; [reflexivity|exact (keeps_trans _ _ _ _ _ _ _ _ _ K1 K2)].
Qed.

Lemma noReaders_empty : noReaders ∅.
Proof. intros name. unfold declOf. now rewrite lookup_empty. Qed.

Lemma noReaders_insert D name fs :
  noReaders D -> noReaders (<[name := mkStruct fs None]> D).
Proof.
  intros H n. unfold declOf. destruct (decide (name = n)) as [->|Hne].
  - now rewrite lookup_insert_eq.
  - rewrite lookup_insert_ne by exact Hne. apply H.
Qed.

(** X12.  Where no struct type has a [ReadConfig], [ReadKey] of a map
    source returns no error, and it writes only to the variable its
    target points into and to what it allocates: every other cell, every
    map object and every flag that existed keeps its value.  A map
    target is therefore set to a new map object; the map it held is not
    modified. *)
Theorem map_decode_frame :
  forall (W : World) (D : Decls) (s : MapSource) (k : string) (p : Ptr)
         (st : Store) (err : option error) (st' : Store),
    noReaders D ->
    MapSource_ReadKey W D s k (Pointer p) st = Some (Returns err st') ->
    err = None
    /\ length (cells st) <= length (cells st')
    /\ (forall c, c < length (cells st) -> c <> cell (addr p) ->
          cells st' !! c = cells st !! c)
    /\ (forall m, m < length (maps st) -> maps st' !! m = maps st !! m)
    /\ (forall f, f < length (flags st) -> flags st' !! f = flags st !! f).
Proof.
  intros W D s k p st err st' Hno H. unfold MapSource_ReadKey in H.
  destruct (getKeyFromMap s (data s) k) as [val|]; [|discriminate].
  unfold readMapPrimitive in H.
  eapply (mapLoop_keeps W D s (length (cells st)) (length (maps st))
            (length (flags st)) (cell (addr p)) Hno) in H;
    [|unfold fits; lia|constructor; [split; [now left|exact I]|constructor]].
  destruct H as (-> & K1 & _ & _ & K4 & K5 & K6).
  repeat apply conj; auto.
Qed.

Lemma map_decode_frame_witness :
  cells (mkStore [DStruct [DString "h"]; DString "kept"] [] []) !! 1
  = cells (mkStore [DZero; DString "kept"] [] []) !! 1.
Proof.
  destruct (map_decode_frame (Ex.world ∅) Ex.serverDecls
              (Ex.jsonSource [("server", VMap [("host", VString "h")])])
              "server" (Ex.ptrTo (TStruct "Server"))
              (mkStore [DZero; DString "kept"] [] []) None
              (mkStore [DStruct [DString "h"]; DString "kept"] [] [])
              (noReaders_insert _ _ _ noReaders_empty) eq_refl)
    as (_ & _ & H & _).
  apply (H 1); [simpl; lia|discriminate].
Defined.

(** ** Struct values of a destination map *)

Lemma entryItems_index K V newMap entries : forall st items st' i item,
  entryItems K V newMap entries st = (items, st') ->
  items !! i = Some item ->
  cellOf item = length (cells st) + i
  /\ match callback item with
     | cbValue _ m _ vp =>
         m = newMap /\ target item = mkPtr vp V false /\ path vp = []
     | _ => True
     end.
Proof.
  induction entries as [|[k v] rest IH]; intros st items st' i item H Hi.
  - injection H as <- <-. discriminate.
  - cbn [entryItems] in H. unfold newFlag, newCell in H. cbn [cells maps flags] in H.
    destruct (entryItems K V newMap rest _) as [items0 st0] eqn:E.
    injection H as <- <-.
    destruct i as [|[|i]].
    + injection Hi as <-. unfold cellOf. cbn. split; [lia|exact I].
    + injection Hi as <-. unfold cellOf. cbn [target addr cell callback].
      rewrite length_app. cbn [length]. split; [lia|]. repeat split.
    + cbn [lookup list_lookup] in Hi.
      destruct (IH _ _ _ _ _ E Hi) as [Hc Hcb]. cbn [cells] in Hc.
      rewrite !length_app in Hc. cbn [length] in Hc. split; [lia|exact Hcb].
Qed.

Lemma separated_step M0 a0 queue children bound :
  separated M0 (a0 :: queue) ->
  Forall (fun b => cellOf b < bound) queue ->
  Forall (fun c => isPending M0 c = false
                   /\ (cellOf c = cellOf a0 \/ bound <= cellOf c)) children ->
  separated M0 (queue ++ children).
Proof.
  intros Hsep Hold Hnew i j a b Hij Ha Hb Hpend.
  apply lookup_app_Some in Hb as [Hb|[_ Hb]].
  2: { apply list_elem_of_lookup_2, list_elem_of_In in Hb.
       rewrite List.Forall_forall in Hnew. destruct (Hnew _ Hb). congruence. }
  apply lookup_app_Some in Ha as [Ha|[_ Ha]].
  - apply (Hsep (S i) (S j) a b); [lia|exact Ha|exact Hb|exact Hpend].
  - apply list_elem_of_lookup_2, list_elem_of_In in Ha.
    rewrite List.Forall_forall in Hnew. destruct (Hnew _ Ha) as [_ [Hc|Hc]].
    + rewrite Hc. apply (Hsep 0 (S j) a0 b); [lia|reflexivity|exact Hb|exact Hpend].
    + apply list_elem_of_lookup_2, list_elem_of_In in Hb.
      rewrite List.Forall_forall in Hold. specialize (Hold _ Hb). lia.
Qed.

Lemma convert_struct W v name : convert W v (TStruct name) = None.
Proof. destruct v; reflexivity. Qed.

Lemma convert_map_of_structs W m K name :
  convert W (VMap m) (TMap K (TStruct name)) = None.
Proof. destruct K; reflexivity. Qed.

(** The iteration of a pending value item whose cell was not written:
    what it commits is the zero value. *)
Lemma pending_step W D s M0 name item st children st' :
  noReaders D ->
  isPending M0 item = true ->
  pendingZero M0 (TStruct name) st item ->
  (exists committed, maps st !! M0 = Some committed /\ zeroValues committed) ->
  mapStep W D s item st = Continue children st' ->
  cells st' = cells st
  /\ (exists committed, maps st' !! M0 = Some committed /\ zeroValues committed)
  /\ Forall (fun c => cellOf c = cellOf item /\ callback c = cbNil) children.
Proof.
  intros Hno Hpend Hzero Hcommitted H.
  destruct item as [src tgt cb]. unfold isPending, pendingZero in *.
  cbn [callback target] in *.
  destruct cb as [| |f m kp vp]; try discriminate.
  apply Nat.eqb_eq in Hpend. subst m.
  destruct (Hzero eq_refl) as (-> & Hpath & Hcell). clear Hzero.
  unfold mapStep in H. cbn [source target callback] in H.
  unfold unwrapTarget in H. cbn [elemType] in H.
  rewrite convert_struct in H. cbn [readOnly] in H. rewrite Hno in H.
  assert (Hnone : cells st = cells st
                  /\ (exists committed,
                         maps st !! M0 = Some committed /\ zeroValues committed)
                  /\ Forall (fun c : mapQueueItem =>
                               cellOf c = cell vp /\ callback c = cbNil) [])
    by (split; [reflexivity|split; [exact Hcommitted|constructor]]).
  destruct src; try (injection H as <- <-; exact Hnone). clear Hnone.
  cbn [addr] in H.
  destruct (fieldItems s m vp (fields (declOf D name)) 0) as [items|] eqn:Ef;
    [|discriminate].
  injection H as <- <-. cbn [complete].
  split; [now destruct (getFlag f st)|]. split.
  - destruct Hcommitted as (committed & Hm & Hz).
    destruct (getFlag f st); [|now exists committed].
    exists ((load kp st, load vp st) :: committed).
    unfold SetMapIndex. cbn [maps]. rewrite list_lookup_alter_eq, Hm. cbn.
    split; [reflexivity|]. constructor; [|exact Hz].
    cbn [snd]. unfold load. now rewrite Hcell, Hpath.
  - exact (fieldItems_children _ _ _ _ _ Ef).
Qed.

Lemma zero_step W D s M0 L0 name item queue st children st' :
  noReaders D ->
  zeroInv M0 L0 (TStruct name) (item :: queue) st ->
  mapStep W D s item st = Continue children st' ->
  zeroInv M0 L0 (TStruct name) (queue ++ children) st'
  /\ (forall c, c < L0 -> cells st' !! c = cells st !! c).
Proof.
  intros Hno (Hcommitted & Hitems & Hsep) H.
  apply Forall_cons in Hitems as [[Hrange Hzero] Hq].
  assert (Hold : Forall (fun b => cellOf b < length (cells st)) queue)
    by (eapply Forall_impl; [exact Hq|]; intros b [? _]; lia).
  destruct (isPending M0 item) eqn:Hpend.
  - destruct (pending_step _ _ _ _ _ _ _ _ _ Hno Hpend Hzero Hcommitted H)
      as (Hcells & Hc' & Hch).
    split; [|intros c _; now rewrite Hcells].
    split; [exact Hc'|]. split.
    + apply Forall_app. split.
      * eapply Forall_impl; [exact Hq|]. intros b [Hb Hz]. rewrite Hcells.
        split; [exact Hb|]. unfold pendingZero in *. now rewrite Hcells.
      * eapply Forall_impl; [exact Hch|]. intros c [Hc Hcb]. rewrite Hcells, Hc.
        split; [exact Hrange|]. unfold pendingZero. now rewrite Hcb.
    + apply (separated_step M0 item queue children (length (cells st)) Hsep Hold).
      eapply Forall_impl; [exact Hch|]. intros c [Hc Hcb].
      split; [unfold isPending; now rewrite Hcb|now left].
  - destruct (mapStep_keeps W D s (length (cells st)) (length (maps st))
                (length (flags st)) (cellOf item)
                (callbackMap (callback item)) (callbackFlag (callback item))
                item st children st' Hno)
      as [(K1 & K2 & K3 & K4 & K5 & K6) Hch]; try assumption.
    { unfold fits. lia. }
    { now left. }
    { destruct (callback item); cbn; auto. }
    destruct Hcommitted as (committed & Hm & Hz).
    assert (HM0 : M0 < length (maps st)) by (eapply lookup_lt_Some; exact Hm).
    split.
    2: { intros c Hc. apply K4; lia. }
    split; [|split].
    + exists committed. split; [|exact Hz]. rewrite K5; [exact Hm|exact HM0|].
      unfold isPending in Hpend. destruct (callback item); cbn; try discriminate.
      intros [= ->]. now rewrite Nat.eqb_refl in Hpend.
    + apply Forall_app. split.
      * apply Forall_lookup. intros j b Hb.
        rewrite Forall_lookup in Hq. destruct (Hq j b Hb) as [Hbr Hbz].
        split; [lia|]. unfold pendingZero in *.
        destruct (callback b) as [| |fb mb kpb vpb] eqn:Ecb; try exact I.
        intros ->. destruct (Hbz eq_refl) as (Ht & Hp & Hcell).
        repeat split; try assumption.
        assert (Hne : cellOf item <> cellOf b).
        { apply (Hsep 0 (S j) item b); [lia|reflexivity|exact Hb|].
          unfold isPending. rewrite Ecb. apply Nat.eqb_refl. }
        assert (Hcb : cellOf b = cell vpb) by (unfold cellOf; now rewrite Ht).
        rewrite K4; [exact Hcell| |]; [|congruence].
        apply lookup_lt_Some in Hcell. exact Hcell.
      * eapply Forall_impl; [exact Hch|]. intros c (Ht & Hcb & Hb).
        split.
        -- split; [destruct Ht as [Ht|Ht]; unfold cellOf in *; lia|].
           apply Hb. lia.
        -- unfold pendingZero. destruct (callback c); try exact I.
           cbn [callbackFits] in Hcb. destruct Hcb as [Hcb|Hcb]; [discriminate|].
           intros ->. lia.
    + apply (separated_step M0 item queue children (length (cells st)) Hsep Hold).
      eapply Forall_impl; [exact Hch|]. intros c (Ht & Hcb & _). split.
      * unfold isPending. destruct (callback c); try reflexivity.
        cbn [callbackFits] in Hcb. destruct Hcb as [Hcb|Hcb]; [discriminate|].
        apply Nat.eqb_neq. lia.
      * exact Ht.
Qed.

Lemma zero_loop W D s M0 L0 name :
  noReaders D ->
  forall fuel queue st err st',
    zeroInv M0 L0 (TStruct name) queue st ->
    readMapPrimitiveLoop fuel W D s queue st = Some (Returns err st') ->
    (exists committed, maps st' !! M0 = Some committed /\ zeroValues committed)
    /\ (forall c, c < L0 -> cells st' !! c = cells st !! c).
Proof.
  intros Hno. induction fuel as [|fuel IH]; intros queue st err st' Hinv H;
    [discriminate|].
  destruct queue as [|item queue].
  - injection H as <- <-. split; [exact (proj1 Hinv)|reflexivity].
  - rewrite readMapPrimitiveLoop_cons in H.
    destruct (mapStep W D s item st) as [children st1|e st1|] eqn:E;
      [|now destruct (mapStep_no_error _ _ _ _ _ _ _ Hno E)|discriminate].
    destruct (zero_step _ _ _ _ _ _ _ _ _ _ _ Hno Hinv E) as [Hinv1 Hc1].
    destruct (IH _ _ _ _ Hinv1 H) as [Hm Hc2].
    split; [exact Hm|]. intros c Hc. now rewrite Hc2, Hc1.
Qed.

(** X13.  A mapping decoded into a map whose values are structs by
    value, without a [ReadConfig]: the target is set to a new map
    object, and every value that is committed to it is the zero struct.
    The callback of a value item runs in the iteration of that item,
    before the items of its fields, and [SetMapIndex] copies the struct
    as it is then; what the field items decode afterwards goes to the
    cell, not to the map. *)
Theorem map_of_structs_commits_zero_values :
  forall (W : World) (D : Decls) (s : MapSource)
         (entries : list (string * value)) (p : Ptr) (K : type) (name : string)
         (d0 : dval) (st : Store) (err : option error) (st' : Store),
    noReaders D ->
    elemType p = TMap K (TStruct name) ->
    readOnly p = false ->
    cells st !! cell (addr p) = Some d0 ->
    readMapPrimitive W D s (VMap entries) p st = Some (Returns err st') ->
    cells st' !! cell (addr p)
    = Some (dset (path (addr p)) (DMap (length (maps st))) d0)
    /\ exists committed,
         maps st' !! length (maps st) = Some committed
         /\ Forall (fun kv => snd kv = DZero) committed.
Proof.
  intros W D s entries p K name d0 st err st' Hno Hty Hro Hd0 H.
  unfold readMapPrimitive in H. rewrite readMapPrimitiveLoop_cons in H.
  unfold mapStep in H. cbn [source target callback] in H.
  unfold unwrapTarget in H. rewrite Hty in H. cbv beta iota in H.
  rewrite Hty, convert_map_of_structs in H.
  unfold newMapObject, assign in H. rewrite Hro in H.
  set (st1 := mkStore (cells st) (maps st ++ [[]]) (flags st)) in *.
  destruct (entryItems K (TStruct name) (length (maps st)) entries st1)
    as [items st2] eqn:Ee.
  cbn [complete] in H.
  pose proof (lookup_lt_Some _ _ _ Hd0) as Hlt.
  destruct (entryItems_spec _ _ _ _ _ _ _ Ee) as (_ & Hst2 & _).
  cbn [st1 cells maps flags] in Hst2.
  assert (Hinv : zeroInv (length (maps st)) (length (cells st)) (TStruct name)
                   items (store (addr p) (DMap (length (maps st))) st2)).
  { split; [|split].
    - exists []. split; [|constructor]. unfold store. cbn [maps].
      rewrite Hst2. cbn [maps]. now rewrite list_lookup_middle.
    - apply Forall_lookup. intros i item Hi.
      destruct (entryItems_index _ _ _ _ _ _ _ _ _ Ee Hi) as [Hc Hcb].
      cbn [st1 cells] in Hc.
      pose proof (lookup_lt_Some _ _ _ Hi) as Hil.
      destruct (entryItems_spec _ _ _ _ _ _ _ Ee) as (Hlen & _ & _).
      rewrite store_length, Hst2. cbn [cells].
      rewrite length_app, length_replicate.
      split; [lia|]. unfold pendingZero.
      destruct (callback item) as [| |f m kp vp]; try exact I.
      intros _. destruct Hcb as (_ & Ht & Hp). repeat split; try assumption.
      assert (Hvp : cell vp = length (cells st) + i)
        by (unfold cellOf in Hc; now rewrite Ht in Hc).
      unfold store. cbn [cells]. rewrite list_lookup_alter_ne by lia.
      rewrite Hvp, lookup_app_r by lia.
      apply lookup_replicate. split; [reflexivity|lia].
    - intros i j a b Hij Ha Hb _.
      destruct (entryItems_index _ _ _ _ _ _ _ _ _ Ee Ha) as [Hca _].
      destruct (entryItems_index _ _ _ _ _ _ _ _ _ Ee Hb) as [Hcb _].
      lia. }
  cbn [app] in H.
  destruct (zero_loop W D s _ _ _ Hno _ _ _ _ _ Hinv H) as [Hm Hc].
  split; [|exact Hm].
  rewrite (Hc _ Hlt). unfold store. cbn [cells].
  rewrite list_lookup_alter_eq, Hst2. cbn [cells].
  now rewrite lookup_app_l, Hd0 by exact Hlt.
Qed.

Lemma map_of_structs_commits_zero_values_witness :
  exists committed,
    maps (mkStore [DMap 0; DString "a"; DStruct [DString "h"]]
            [[(DString "a", DZero)]] [true]) !! 0
    = Some committed
    /\ Forall (fun kv => snd kv = DZero) committed.
Proof.
  apply (map_of_structs_commits_zero_values (Ex.world ∅) Ex.serverDecls
           (Ex.jsonSource []) [("a", VMap [("host", VString "h")])]
           (Ex.ptrTo (TMap TString (TStruct "Server"))) TString "Server"
           DZero Ex.oneCell None
           (mkStore [DMap 0; DString "a"; DStruct [DString "h"]]
              [[(DString "a", DZero)]] [true])
           (noReaders_insert _ _ _ noReaders_empty)
           eq_refl eq_refl eq_refl eq_refl).
Defined.

(** ** The registry of sources and [NewSource] *)

Lemma Ext_eq c r :
  Path.Ext (String c r) =
    match Path.Ext r with
    | EmptyString =>
        if Ascii.eqb c "." && negb (Path.hasSeparator r) then String c r
        else EmptyString
    | ext => ext
    end.
Proof. reflexivity. Qed.

Lemma Ext_nodot x :
  Spec.all Spec.notDot x = true -> Path.Ext x = EmptyString.
Proof.
  induction x as [|c r IH]; [reflexivity|].
  intros [Hc Hr]%all_cons. rewrite Ext_eq, (IH Hr).
  unfold Spec.notDot in Hc. apply negb_true_iff in Hc. now rewrite Hc.
Qed.

Lemma Ext_suffix stem x :
  Spec.all Spec.notDot x = true -> Path.hasSeparator x = false ->
  Path.Ext (stem +:+ String "." x) = String "." x.
Proof.
  intros Hd Hs. induction stem as [|c r IH].
  - change (EmptyString +:+ String "." x) with (String "." x).
    rewrite Ext_eq, (Ext_nodot _ Hd), Hs. reflexivity.
  - change (String c r +:+ String "." x) with (String c (r +:+ String "." x)).
    rewrite Ext_eq. now rewrite IH.
Qed.

(** X14.  [inferSourceTypeFromFilePath] returns the empty type or a
    type that has a builder.  With the initial registry a path that
    begins with [.env] is an environment file whatever its extension,
    and any other path is typed by the extension after its last dot:
    [.yaml] and [.yml] give [yaml], [.json] gives [json]. *)
Theorem infer_source_type :
  forall (H : Host) (R : Registry) (path stem : string),
    (inferSourceTypeFromFilePath R path = EmptyString
     \/ is_Some (sources R !! inferSourceTypeFromFilePath R path))
    /\ (Path.HasPrefix path ".env" = true ->
        inferSourceTypeFromFilePath (defaultRegistry H) path = EnvSourceType)
    /\ (Path.HasPrefix (stem +:+ ".yaml") ".env" = false ->
        inferSourceTypeFromFilePath (defaultRegistry H) (stem +:+ ".yaml")
        = YAMLSourceType)
    /\ (Path.HasPrefix (stem +:+ ".yml") ".env" = false ->
        inferSourceTypeFromFilePath (defaultRegistry H) (stem +:+ ".yml")
        = YAMLSourceType)
    /\ (Path.HasPrefix (stem +:+ ".json") ".env" = false ->
        inferSourceTypeFromFilePath (defaultRegistry H) (stem +:+ ".json")
        = JSONSourceType).
Proof.
  intros H R path stem. split; [|split; [|split; [|split]]].
  - unfold inferSourceTypeFromFilePath. cbv zeta.
    set (typ := if Path.HasPrefix path ".env" then _ else _).
    match goal with
    | |- context [match ?x with Some _ => _ | None => _ end] => destruct x eqn:E
    end; [right; eexists; exact E|now left].
  - intros Hp. unfold inferSourceTypeFromFilePath. rewrite Hp. reflexivity.
  - intros Hp. unfold inferSourceTypeFromFilePath. rewrite Hp.
    rewrite (Ext_suffix stem "yaml" eq_refl eq_refl). reflexivity.
  - intros Hp. unfold inferSourceTypeFromFilePath. rewrite Hp.
    rewrite (Ext_suffix stem "yml" eq_refl eq_refl). reflexivity.
  - intros Hp. unfold inferSourceTypeFromFilePath. rewrite Hp.
    rewrite (Ext_suffix stem "json" eq_refl eq_refl). reflexivity.
Qed.

Lemma infer_source_type_witness :
  inferSourceTypeFromFilePath (defaultRegistry noFiles) ".env.yaml" = EnvSourceType.
Proof.
  apply (proj1 (proj2 (infer_source_type noFiles (defaultRegistry noFiles)
                         ".env.yaml" EmptyString))).
  reflexivity.
Defined.

Lemma tryBuilders_error R sourceOptions : forall candidates W err W' e,
  tryBuilders R candidates sourceOptions W err = (W', Err e) ->
  match List.rev candidates with
  | [] => err = Some e /\ W' = W
  | typ :: _ =>
      exists builder W0,
        sources R !! typ = Some builder
        /\ builder sourceOptions W0 = (W', Err e)
  end.
Proof.
  induction candidates as [|typ rest IH]; intros W err W' e H.
  - cbn in H. destruct err; [|discriminate]. injection H as <- <-. now split.
  - cbn [tryBuilders] in H.
    destruct (sources R !! typ) as [builder|] eqn:Eb; [|discriminate].
    destruct (builder sourceOptions W) as [W1 [src|e1|]] eqn:Er; try discriminate.
    specialize (IH _ _ _ _ H). cbn [List.rev].
    destruct (List.rev rest) as [|typ' l] eqn:Erev.
    + destruct IH as [[= <-] ->]. cbn [app]. now exists builder, W.
    + cbn [app]. exact IH.
Qed.

(** X15.  When [NewSource] returns an error, it is the error of the
    builder it tried last, the builder of the first type of the list it
    walks from the end: the errors of the builders tried before are
    dropped.  When neither a type nor a path that gives one is
    requested, that builder is the one of the first registered type,
    [env] in the initial registry. *)
Theorem NewSource_error_is_of_last_builder :
  forall (R : Registry) (W W' : World) (e : error) (first : SourceType)
         (others : list SourceType),
    reverseOrderedSources R = first :: others ->
    Getenv W "CONFIG_TYPE" = EmptyString ->
    Getenv W "CONFIG_PATH" = EmptyString ->
    NewSource R [] W = (W', Err e) ->
    exists builder W0,
      sources R !! first = Some builder
      /\ builder (environmentOptions W) W0 = (W', Err e).
Proof.
  intros R W W' e first others Hlist Ht Hp H.
  unfold NewSource in H. rewrite Ht, Hp in H. cbn in H.
  apply tryBuilders_error in H. rewrite Hlist in H.
  rewrite List.rev_involutive in H.
  unfold environmentOptions. now rewrite Hp.
Qed.

Lemma NewSource_error_is_of_last_builder_witness :
  exists builder W0,
    sources (defaultRegistry unreadableFiles) !! "env" = Some builder
    /\ builder (environmentOptions (Ex.world ∅)) W0
       = (Ex.world ∅, Err (ReaderError "unreadable")).
Proof.
  apply (NewSource_error_is_of_last_builder (defaultRegistry unreadableFiles)
           (Ex.world ∅) (Ex.world ∅) (ReaderError "unreadable")
           "env" ["json"; "yaml"]); reflexivity.
Defined.

Lemma file_builders_keep_world H opts W :
  fst (BuildYAMLSource H opts W) = W /\ fst (BuildJSONSource H opts W) = W.
Proof.
  unfold BuildYAMLSource, BuildJSONSource. split.
  - destruct (openFile H _); try reflexivity.
    destruct (yamlDecode H _); try reflexivity.
    destruct (NewYAMLSource W _ _); reflexivity.
  - destruct (openFile H _); try reflexivity.
    destruct (jsonStreamDecode H _); try reflexivity.
    destruct (NewJSONSource W _ _); reflexivity.
Qed.

(** X16.  With the initial registry and neither a type nor a path
    requested, [NewSource] tries the YAML builder, then the JSON
    builder, then the environment builder, and returns the first source
    that is built.  Whatever makes a file builder fail, a missing file
    or a file that does not parse, is dropped without a trace; only the
    error of the environment builder is ever returned. *)
Theorem NewSource_default_order :
  forall (H : Host) (W : World),
    Getenv W "CONFIG_TYPE" = EmptyString ->
    Getenv W "CONFIG_PATH" = EmptyString ->
    NewSource (defaultRegistry H) [] W =
      match snd (BuildYAMLSource H (environmentOptions W) W) with
      | Ok source => (W, Ok (Some source))
      | Panic => (W, Panic)
      | Err _ =>
          match snd (BuildJSONSource H (environmentOptions W) W) with
          | Ok source => (W, Ok (Some source))
          | Panic => (W, Panic)
          | Err _ =>
              match BuildEnvSource H (environmentOptions W) W with
              | (W', Ok source) => (W', Ok (Some source))
              | (W', Err e) => (W', Err e)
              | (W', Panic) => (W', Panic)
              end
          end
      end.
Proof.
  intros H W Ht Hp. unfold NewSource. rewrite Ht, Hp.
  unfold environmentOptions. rewrite Hp.
  cbn [Str.ToLower Str.map Str.is_empty negb].
  change (List.rev (reverseOrderedSources (defaultRegistry H)))
    with ["yaml"; "json"; "env"].
  set (opts := mkSourceOptions EmptyString (Getenv W "CONFIG_CONVENTION")).
  cbn [tryBuilders].
  change (sources (defaultRegistry H) !! "yaml") with (Some (BuildYAMLSource H)).
  change (sources (defaultRegistry H) !! "json") with (Some (BuildJSONSource H)).
  change (sources (defaultRegistry H) !! "env") with (Some (BuildEnvSource H)).
  destruct (file_builders_keep_world H opts W) as [HY HJ].
  destruct (BuildYAMLSource H opts W) as [W1 r1]. cbn [fst snd] in *. subst W1.
  destruct r1; try reflexivity.
  destruct (BuildJSONSource H opts W) as [W2 r2]. cbn [fst snd] in *. subst W2.
  destruct r2; reflexivity.
Qed.

Lemma NewSource_default_order_witness :
  NewSource (defaultRegistry noFiles) [] (Ex.world ∅)
  = (Ex.world ∅, Ok (Some (OfEnvSource (mkEnvSource UpperSnakeCaseNormalizer)))).
Proof.
  rewrite (NewSource_default_order noFiles (Ex.world ∅)); reflexivity.
Defined.

(** X17.  A requested type without a builder makes [NewSource] call a
    nil function: it panics, and it builds nothing.  The type of the
    environment variable [CONFIG_TYPE] is lower-cased; the type of the
    options is used as it is written. *)
Theorem NewSource_unregistered_type_panics :
  forall (R : Registry) (opts : Options) (rest : list Options) (W : World),
    let sourceType :=
      stringOrDefault (Str.ToLower (Getenv W "CONFIG_TYPE"))
        (Options_SourceType opts) in
    sourceType <> EmptyString ->
    sources R !! sourceType = None ->
    NewSource R (opts :: rest) W = (W, Panic).
Proof.
  intros R opts rest W sourceType Hne Hnone. unfold NewSource.
  cbv beta iota zeta. fold sourceType. apply is_empty_false in Hne. rewrite Hne.
  cbn [negb List.rev app tryBuilders].
  match goal with
  | |- match ?x with Some _ => _ | None => _ end = _ =>
      replace x with (@None SourceBuilder) by (symmetry; exact Hnone)
  end.
  reflexivity.
Qed.

Lemma NewSource_unregistered_type_panics_witness :
  NewSource (defaultRegistry noFiles)
    [mkOptions (mkSourceOptions EmptyString EmptyString) "YAML"] (Ex.world ∅)
  = (Ex.world ∅, Panic).
Proof.
  apply (NewSource_unregistered_type_panics (defaultRegistry noFiles)
           (mkOptions (mkSourceOptions EmptyString EmptyString) "YAML") []
           (Ex.world ∅)); [discriminate|reflexivity].
Defined.

(** X18.  A builder registered with [RegisterSource] is tried before
    every builder that was there: when neither a type nor a path is
    requested and it succeeds, [NewSource] returns its source and calls
    no other builder.  A path that ends in a dot and the registered
    type is given that type. *)
Theorem registered_source_is_tried_first :
  forall (R : Registry) (typ : SourceType) (builder : SourceBuilder)
         (W W' : World) (source : Source) (stem : string),
    (Getenv W "CONFIG_TYPE" = EmptyString ->
     Getenv W "CONFIG_PATH" = EmptyString ->
     builder (environmentOptions W) W = (W', Ok source) ->
     NewSource (RegisterSource typ builder R) [] W = (W', Ok (Some source)))
    /\ (Spec.all Spec.notDot typ = true ->
        Path.hasSeparator typ = false ->
        Path.HasPrefix (stem +:+ "." +:+ typ) ".env" = false ->
        inferSourceTypeFromFilePath (RegisterSource typ builder R)
          (stem +:+ "." +:+ typ) = typ).
Proof.
  intros R typ builder W W' source stem. split.
  - intros Ht Hp Hb. unfold NewSource. rewrite Ht, Hp.
    unfold environmentOptions in Hb. rewrite Hp in Hb.
    cbn [Str.ToLower Str.map Str.is_empty negb RegisterSource reverseOrderedSources].
    rewrite List.rev_app_distr. cbn [List.rev app tryBuilders].
    cbn [RegisterSource sources].
    now rewrite lookup_insert_eq, Hb.
  - intros Hd Hs Hp. unfold inferSourceTypeFromFilePath. rewrite Hp.
    change (stem +:+ "." +:+ typ) with (stem +:+ String "." typ).
    rewrite (Ext_suffix stem typ Hd Hs).
    cbn [RegisterSource sourceTypeByExt sources].
    change ("." +:+ typ) with (String "." typ).
    now rewrite !lookup_insert_eq.
Qed.

Lemma registered_source_is_tried_first_witness :
  NewSource
    (RegisterSource "toml"
       (fun _ W => (W, Ok (OfMapSource Ex.mapSource)))
       (defaultRegistry noFiles)) [] (Ex.world ∅)
  = (Ex.world ∅, Ok (Some (OfMapSource Ex.mapSource))).
Proof.
  apply (proj1 (registered_source_is_tried_first (defaultRegistry noFiles) "toml"
                  (fun _ W => (W, Ok (OfMapSource Ex.mapSource)))
                  (Ex.world ∅) (Ex.world ∅) (OfMapSource Ex.mapSource)
                  EmptyString)); reflexivity.
Defined.

(** X19.  The environment wins over the options of the caller: a
    variable [CONFIG_PATH], [CONFIG_CONVENTION] or [CONFIG_TYPE] that is
    set replaces the corresponding option, so that with the three set
    the options are not used at all; and of several options only the
    first is read. *)
Theorem environment_overrides_options :
  forall (R : Registry) (opts : Options) (rest : list Options) (W : World),
    NewSource R (opts :: rest) W = NewSource R [opts] W
    /\ (Getenv W "CONFIG_PATH" <> EmptyString ->
        Getenv W "CONFIG_CONVENTION" <> EmptyString ->
        Str.ToLower (Getenv W "CONFIG_TYPE") <> EmptyString ->
        NewSource R (opts :: rest) W = NewSource R [] W).
Proof.
  intros R opts rest W. split; [reflexivity|].
  intros Hp%is_empty_false Hc%is_empty_false Ht%is_empty_false.
  unfold NewSource, stringOrDefault.
  repeat rewrite Hp. repeat rewrite Hc. repeat rewrite Ht. reflexivity.
Qed.

Lemma environment_overrides_options_witness :
  NewSource (defaultRegistry noFiles)
    [mkOptions (mkSourceOptions "app.yaml" "camel") "yaml"]
    (Ex.world (<["CONFIG_PATH" := "x.json"]>
               (<["CONFIG_CONVENTION" := "snake"]>
               (<["CONFIG_TYPE" := "ENV"]> ∅))))
  = NewSource (defaultRegistry noFiles) []
      (Ex.world (<["CONFIG_PATH" := "x.json"]>
                 (<["CONFIG_CONVENTION" := "snake"]>
                 (<["CONFIG_TYPE" := "ENV"]> ∅)))).
Proof.
  apply (proj2 (environment_overrides_options (defaultRegistry noFiles)
                  (mkOptions (mkSourceOptions "app.yaml" "camel") "yaml") []
                  (Ex.world (<["CONFIG_PATH" := "x.json"]>
                             (<["CONFIG_CONVENTION" := "snake"]>
                             (<["CONFIG_TYPE" := "ENV"]> ∅))))));
    discriminate.
Defined.

(** X20.  [BuildEnvSource] fails in exactly two ways.  It returns the
    error of [godotenv.Load] when that error is not a missing file, or
    when it is one and a path was given; a missing [.env] without a
    path is tolerated.  Otherwise it returns what [NewEnvSource] does,
    in the environment the load has left, so that its only other error
    is the unknown convention.  It never panics. *)
Theorem BuildEnvSource_failures :
  forall (H : Host) (opts : SourceOptions) (W : World)
         (environment : gmap string string) (loadErr : option error),
    godotenvLoad H (dotenvPath opts) (environ W) = (environment, loadErr) ->
    let W' := withEnviron environment W in
    fst (BuildEnvSource H opts W) = W'
    /\ snd (BuildEnvSource H opts W) <> Panic
    /\ (forall e,
          snd (BuildEnvSource H opts W) = Err e <->
          (loadErr = Some e
           /\ (isNotExist H e = false \/ FilePath opts <> EmptyString))
          \/ ((loadErr = None
               \/ exists e0, loadErr = Some e0 /\ isNotExist H e0 = true
                             /\ FilePath opts = EmptyString)
              /\ exists c, e = UnknownConventionError c
                           /\ NewEnvSource W' (Convention opts) = Err e)).
Proof.
  intros H opts W environment loadErr Hload W'.
  unfold BuildEnvSource. unfold dotenvPath in Hload. rewrite Hload. fold W'.
  assert (Hnew : forall e, NewEnvSource W' (Convention opts) = Err e ->
                           exists c, e = UnknownConventionError c
                                     /\ NewEnvSource W' (Convention opts) = Err e).
  { intros e He. unfold NewEnvSource, NormalizerForSourceType in *.
    destruct (GetNormalizer _); [discriminate|]. injection He as <-. eauto. }
  assert (Hnp : NewEnvSource W' (Convention opts) <> Panic).
  { unfold NewEnvSource, NormalizerForSourceType.
    destruct (GetNormalizer _); discriminate. }
  destruct loadErr as [e0|].
  - destruct (isNotExist H e0) eqn:Ene;
      destruct (Str.is_empty (FilePath opts)) eqn:Efp;
      cbn [negb andb orb fst snd].
    + (* a missing [.env], no path *)
      apply is_empty_false_iff_not in Efp.
      destruct (NewEnvSource W' (Convention opts)) as [src|e1|] eqn:En;
        cbn [fst snd]; (split; [reflexivity|split; [try discriminate|]]);
        try congruence.
      * intros e. split; [discriminate|].
        intros [[[= <-] [?|?]]|[_ (c & _ & ?)]]; congruence.
      * intros e. split.
        -- intros [= <-]. right. split; [right; exists e0; auto|]. now apply Hnew.
        -- intros [[[= <-] [?|?]]|[_ (c & _ & ?)]]; congruence.
    + (* a missing file at the path given *)
      split; [reflexivity|]. split; [discriminate|]. intros e. split.
      * intros [= <-]. left. split; [reflexivity|right]. now apply is_empty_false.
      * intros [[[= <-] _]|[[?|(e1 & [= <-] & _ & Hfp)] _]]; try congruence.
        rewrite Hfp in Efp. discriminate.
    + split; [reflexivity|]. split; [discriminate|]. intros e. split.
      * intros [= <-]. left. split; [reflexivity|now left].
      * intros [[[= <-] _]|[[?|(e1 & [= <-] & ? & _)] _]]; congruence.
    + split; [reflexivity|]. split; [discriminate|]. intros e. split.
      * intros [= <-]. left. split; [reflexivity|now left].
      * intros [[[= <-] _]|[[?|(e1 & [= <-] & ? & _)] _]]; congruence.
  - destruct (NewEnvSource W' (Convention opts)) as [src|e1|] eqn:En;
      cbn [fst snd]; (split; [reflexivity|split; [try discriminate|]]);
      try congruence.
    + intros e. split; [discriminate|].
      intros [[? _]|[_ (c & _ & ?)]]; congruence.
    + intros e. split.
      * intros [= <-]. right. split; [now left|]. now apply Hnew.
      * intros [[? _]|[_ (c & _ & ?)]]; congruence.
Qed.

Lemma BuildEnvSource_failures_witness :
  snd (BuildEnvSource unreadableFiles (mkSourceOptions EmptyString EmptyString)
         (Ex.world ∅))
  = Err (ReaderError "unreadable").
Proof.
  destruct (BuildEnvSource_failures unreadableFiles
              (mkSourceOptions EmptyString EmptyString) (Ex.world ∅)
              ∅ (Some (ReaderError "unreadable")) eq_refl) as (_ & _ & H).
  apply H. left. split; [reflexivity|left; reflexivity].
Defined.

(** ** The conventions of the source types *)



(** X21.  [SetConventionForSourceType] is read back by
    [GetConventionForSourceType] for the same source type, unless the
    variable [<TYPE>_CONVENTION] of the environment is set, which wins;
    the other source types keep their convention.  The name is not
    checked when it is set: a name without a normalizer makes the next
    construction of a source of that type fail. *)
Theorem convention_registry_round_trip :
  forall (W : World) (sourceType other : SourceType) (convention : string),
    (Getenv W (Str.ToUpper sourceType +:+ "_CONVENTION") = EmptyString ->
     GetConventionForSourceType
       (SetConventionForSourceType sourceType convention W) sourceType
     = convention)
    /\ (Getenv W (Str.ToUpper sourceType +:+ "_CONVENTION") <> EmptyString ->
        GetConventionForSourceType
          (SetConventionForSourceType sourceType convention W) sourceType
        = Getenv W (Str.ToUpper sourceType +:+ "_CONVENTION"))
    /\ (other <> sourceType ->
        GetConventionForSourceType
          (SetConventionForSourceType sourceType convention W) other
        = GetConventionForSourceType W other)
    /\ (Getenv W "YAML_CONVENTION" = EmptyString ->
        GetNormalizer convention = None ->
        forall data,
          NewYAMLSource (SetConventionForSourceType YAMLSourceType convention W)
            data EmptyString
          = Err (UnknownConventionError convention)).
Proof.
  intros W sourceType other convention.
  assert (Hset : forall t0 t,
    GetConventionForSourceType (SetConventionForSourceType t0 convention W) t
    = stringOrDefault (Getenv W (Str.ToUpper t +:+ "_CONVENTION"))
        (match <[t0 := convention]> (sourceConventions W) !! t with
         | Some c => c
         | None => EmptyString
         end)) by reflexivity.
  split; [|split; [|split]].
  - intros He. rewrite Hset, He, lookup_insert_eq. reflexivity.
  - intros He%is_empty_false. rewrite Hset. unfold stringOrDefault. now rewrite He.
  - intros Hne. rewrite Hset, lookup_insert_ne by congruence. reflexivity.
  - intros He Hnone data. unfold NewYAMLSource, NormalizerForSourceType.
    cbn [Str.is_empty negb]. rewrite Hset.
    change (Str.ToUpper YAMLSourceType +:+ "_CONVENTION") with "YAML_CONVENTION".
    rewrite He, lookup_insert_eq. cbn [stringOrDefault Str.is_empty].
    now rewrite Hnone.
Qed.

Lemma convention_registry_round_trip_witness :
  GetConventionForSourceType
    (SetConventionForSourceType "yaml" "camel" (Ex.world ∅)) "yaml"
  = "camel".
Proof.
  apply (proj1 (convention_registry_round_trip (Ex.world ∅) "yaml" "json" "camel")).
  reflexivity.
Defined.

(** ** Unset variables *)

(** X22.  What [ReadKey] of the environment source does to a target
    whose variable is not set depends on the type of the target: a
    string is overwritten with the empty string, since every value is a
    string; a bool keeps the value it had, since the empty string is
    not a boolean and the error is dropped. *)
Theorem env_unset_variable :
  forall (fuel : nat) (W : World) (D : Decls) (s : EnvSource) (k k' : string)
         (l : loc) (st : Store),
    Normalize (env_normalizer s) k = Some k' ->
    environ W !! k' = None ->
    EnvSource_ReadKey (S (S fuel)) W D s k (Pointer (mkPtr l TString false)) st
    = Some (Returns None (store l (DString EmptyString) st))
    /\ EnvSource_ReadKey (S (S fuel)) W D s k (Pointer (mkPtr l TBool false)) st
       = Some (Returns None st).
Proof.
  intros fuel W D s k k' l st Hk Hunset.
  assert (Hread : readEnvKey W s k = Some EmptyString)
    by (unfold readEnvKey, Getenv; now rewrite Hk, Hunset).
  split; unfold EnvSource_ReadKey, readKey; rewrite readKeyLoop_cons;
    unfold envStep; cbn [envTarget key]; unfold unwrapTarget; cbn [elemType];
    rewrite Hread; reflexivity.
Qed.

Lemma env_unset_variable_witness :
  EnvSource_ReadKey 2 (Ex.world ∅) Ex.serverDecls
    (mkEnvSource UpperSnakeCaseNormalizer) "host"
    (Pointer (mkPtr (Loc 0 []) TString false)) (mkStore [DString "localhost"] [] [])
  = Some (Returns None
      (store (Loc 0 []) (DString EmptyString) (mkStore [DString "localhost"] [] []))).
Proof.
  apply (env_unset_variable 0 (Ex.world ∅) Ex.serverDecls
           (mkEnvSource UpperSnakeCaseNormalizer) "host" "HOST"
           (Loc 0 []) (mkStore [DString "localhost"] [] []));
    reflexivity.
Defined.

(** ** The case of the first letter *)



(** ** Booleans with a default *)



(** ** Slices of the map decoder *)

Lemma unwrapTarget_plain p st :
  (forall e, elemType p <> TPtr e) -> unwrapTarget p st = Some (p, st).
Proof.
  intros H. unfold unwrapTarget. destruct (elemType p) eqn:E; try reflexivity.
  now destruct (H t).
Qed.

Lemma convert_step W D s item st d :
  convert W (source item) (elemType (target item)) = Some d ->
  (forall e, elemType (target item) <> TPtr e) ->
  readOnly (target item) = false ->
  mapStep W D s item st
  = Continue [] (complete (callback item) (store (addr (target item)) d st)).
Proof.
  intros Hc Hp Hro. unfold mapStep.
  destruct (source item); [discriminate|..];
    rewrite (unwrapTarget_plain _ st Hp), Hc; unfold assign; rewrite Hro;
    reflexivity.
Qed.

Lemma length_le_sum_weight B l : length l <= sum_list_with (weight B) l.
Proof.
  induction l as [|v l IH]; [reflexivity|].
  cbn [sum_list_with length]. pose proof (weight_pos B v). lia.
Qed.

Lemma slice_fill W D s elemT :
  (forall e, elemT <> TPtr e) ->
  forall vs ds fuel pre filled rest tail ms fs,
    Forall2 (fun v d => convert W v elemT = Some d) vs ds ->
    length vs <= length rest ->
    length vs < fuel ->
    readMapPrimitiveLoop fuel W D s
      (imap (fun j v =>
               mkMapItem v (mkPtr (Loc (length pre) [length filled + j]) elemT false)
                 cbNil) vs)
      (mkStore (pre ++ DArray (filled ++ rest) :: tail) ms fs)
    = Some (Returns None
        (mkStore (pre ++ DArray (filled ++ ds ++ drop (length vs) rest) :: tail)
           ms fs)).
Proof.
  intros Hp vs ds fuel pre filled rest tail ms fs Hconv.
  revert fuel filled rest.
  induction Hconv as [|v d vs ds Hv Hconv IH]; intros fuel filled rest Hlen Hfuel.
  - destruct fuel; [cbn in Hfuel; lia|]. reflexivity.
  - destruct fuel as [|fuel]; [lia|].
    destruct rest as [|e rest]; [cbn in Hlen; lia|].
    cbn [imap]. rewrite readMapPrimitiveLoop_cons.
    rewrite (convert_step W D s _ _ d) by (try exact Hv; try exact Hp; reflexivity).
    cbn [callback complete target addr app].
    rewrite Nat.add_0_r, store_element, app_nil_r.
    specialize (IH fuel (filled ++ [d]) rest
                  ltac:(cbn [length] in Hlen; lia) ltac:(cbn [length] in Hfuel; lia)).
    rewrite <- !List.app_assoc in IH. cbn [app] in IH.
    cbn [length drop]. rewrite <- IH. f_equal.
    apply imap_ext. intros j x _. cbn.
    rewrite length_app. cbn [length].
    replace (length filled + 1 + j) with (length filled + S j) by lia.
    reflexivity.
Qed.

(** X24.  A list whose elements all convert to the element type of a
    slice target is decoded to a new slice of its length that holds the
    converted elements in the order of the list; the target is set to
    that slice and nothing else is written. *)
Theorem slice_of_convertible_values :
  forall (W : World) (D : Decls) (s : MapSource) (vs : list value)
         (ds : list dval) (elemT : type) (p : Ptr) (st : Store),
    readOnly p = false ->
    elemType p = TSlice elemT ->
    elemT <> TInterface ->
    (forall e, elemT <> TPtr e) ->
    cell (addr p) < length (cells st) ->
    Forall2 (fun v d => convert W v elemT = Some d) vs ds ->
    readMapPrimitive W D s (VSlice vs) p st
    = Some (Returns None
        (mkStore
           (cells (store (addr p) (DSlice (length (cells st)) (length vs)) st)
            ++ [DArray ds])
           (maps st) (flags st))).
Proof.
  intros W D s vs ds elemT p st Hro Hty Hni Hnp Hcell Hconv.
  unfold readMapPrimitive. rewrite weight_VSlice, readMapPrimitiveLoop_cons.
  unfold mapStep. cbn [source target callback].
  rewrite unwrapTarget_plain by (rewrite Hty; discriminate).
  rewrite Hty.
  assert (Hnc : convert W (VSlice vs) (TSlice elemT) = None)
    by (destruct elemT; try reflexivity; congruence).
  rewrite Hnc. unfold newCell, assign. rewrite Hro. cbn [complete app].
  unfold sliceItems.
  unfold store. cbn [cells maps flags].
  rewrite alter_app_l by exact Hcell.
  pose proof (slice_fill W D s elemT Hnp vs ds
                (S (sum_list_with (weight (branching D)) vs))
                (alter (dset (path (addr p))
                          (DSlice (length (cells st)) (length vs)))
                   (cell (addr p)) (cells st))
                [] (replicate (length vs) DZero) [] (maps st) (flags st) Hconv) as H.
  rewrite length_alter, length_replicate in H. cbn [length app Nat.add] in H.
  rewrite H; [|lia|pose proof (length_le_sum_weight (branching D) vs); lia].
  rewrite drop_ge by (rewrite length_replicate; lia).
  now rewrite app_nil_r.
Qed.

Lemma slice_of_convertible_values_witness :
  readMapPrimitive (Ex.world ∅) Ex.serverDecls Ex.mapSource
    (VSlice [VString "a"; VString "b"]) (Ex.ptrTo (TSlice TString)) Ex.oneCell
  = Some (Returns None
      (mkStore
         (cells (store (Loc 0 []) (DSlice 1 2) Ex.oneCell)
          ++ [DArray [DString "a"; DString "b"]]) [] [])).
Proof.
  apply (slice_of_convertible_values (Ex.world ∅) Ex.serverDecls Ex.mapSource
           [VString "a"; VString "b"] [DString "a"; DString "b"] TString
           (Ex.ptrTo (TSlice TString)) Ex.oneCell);
    try reflexivity; try discriminate.
  - simpl. lia.
  - repeat constructor.
Defined.

(** ** Pointer targets of the environment decoder *)

Lemma unwrap_path t : forall l st,
  path l = [] -> path (fst (fst (unwrap t l st))) = [].
Proof.
  induction t; intros l st Hl; try exact Hl.
  cbn [unwrap]. unfold newCell. apply IHt. reflexivity.
Qed.

Lemma unwrap_sets_pointer e : forall tgt st d0,
  cells st !! cell tgt = Some d0 ->
  let '(tgt', _, st') := unwrap (TPtr e) tgt st in
  cells st' !! cell tgt
  = Some (dset (path tgt) (DPtr (Loc (length (cells st)) [])) d0)
  /\ length (cells st) <= cell tgt'
  /\ cell tgt' < length (cells st')
  /\ path tgt' = []
  /\ maps st' = maps st /\ flags st' = flags st.
Proof.
  intros tgt st d0 Hd0. cbn [unwrap]. unfold newCell.
  set (st1 := mkStore (cells st ++ [DZero]) (maps st) (flags st)).
  set (elemPtr := Loc (length (cells st)) []).
  set (st2 := store tgt (DPtr elemPtr) st1).
  pose proof (lookup_lt_Some _ _ _ Hd0) as Hlt.
  assert (Hfit : fits (S (length (cells st))) 0 0 st2).
  { unfold fits, st2. rewrite store_length. cbn [st1 cells].
    rewrite length_app. cbn [length]. lia. }
  destruct (unwrap_keeps (S (length (cells st))) 0 0 (length (cells st)) None None
              e elemPtr st2 Hfit ltac:(now left))
    as ((K1 & _ & _ & K4 & _) & T & B).
  pose proof (unwrap_flags e elemPtr st2) as [Hf Hm].
  pose proof (unwrap_path e elemPtr st2 eq_refl) as Hpath.
  destruct (unwrap e elemPtr st2) as [[tgt' t'] st'] eqn:Eu. cbn [fst snd] in *.
  repeat apply conj.
  - rewrite K4 by lia. unfold st2, store. cbn [st1 cells].
    rewrite list_lookup_alter_eq, lookup_app_l by exact Hlt. now rewrite Hd0.
  - destruct T as [T|T]; cbn [elemPtr cell] in T; lia.
  - apply B. unfold st2. rewrite store_length. cbn [st1 cells elemPtr cell].
    rewrite length_app. cbn [length]. lia.
  - exact Hpath.
  - rewrite Hm. reflexivity.
  - rewrite Hf. reflexivity.
Qed.

Lemma readEnvPrimitive_writes W D elemT val l st :
  listElem elemT = true ->
  exists err st2,
    readEnvPrimitive W D val (mkPtr l elemT false) st = Some (Returns err st2)
    /\ (st2 = st \/ exists v, st2 = store l v st).
Proof.
  intros He. unfold readEnvPrimitive, setElem. cbn [elemType readOnly addr].
  destruct elemT; try discriminate; try (eexists _, _; split; [reflexivity|eauto]).
  - destruct (parseBool val) eqn:E;
      [eexists _, _; split; [reflexivity|eauto]..|].
    now destruct (parseBool_no_panic val).
  - destruct (Atoi W val); eexists _, _; split; try reflexivity; eauto.
  - destruct (ParseFloat W val); eexists _, _; split; try reflexivity; eauto.
Qed.

(** X26.  The environment decoder allocates what a pointer target points
    to before it looks at the variable: after [ReadKey] into a pointer
    to a scalar the target holds a pointer to a new cell, whether the
    variable is set or not and whether its value decodes or not.  The
    call returns no error. *)
Theorem env_pointer_is_always_allocated :
  forall (fuel : nat) (W : World) (D : Decls) (s : EnvSource) (k k' : string)
         (l : loc) (e : type) (d0 : dval) (st : Store),
    Normalize (env_normalizer s) k = Some k' ->
    listElem (pointee e) = true ->
    cells st !! cell l = Some d0 ->
    exists st',
      EnvSource_ReadKey (S (S fuel)) W D s k (Pointer (mkPtr l (TPtr e) false)) st
      = Some (Returns None st')
      /\ cells st' !! cell l
         = Some (dset (path l) (DPtr (Loc (length (cells st)) [])) d0).
Proof.
  intros fuel W D s k k' l e d0 st Hk He Hd0.
  unfold EnvSource_ReadKey, readKey. rewrite readKeyLoop_cons.
  unfold envStep. cbn [envTarget key]. unfold unwrapTarget. cbn [elemType readOnly addr].
  pose proof (unwrap_sets_pointer e l st d0 Hd0) as HU.
  pose proof (unwrap_pointee (TPtr e) l st) as Hty.
  destruct (unwrap (TPtr e) l st) as [[tgt t] st1]. cbn [fst snd pointee] in Hty.
  subst t. destruct HU as (Hcell & Hge & Hlt & Hpath & _ & _).
  destruct tgt as [c p]. cbn [cell path] in *. subst p.
  cbn [elemType]. unfold readEnvKey. rewrite Hk.
  destruct (readEnvPrimitive_writes W D (pointee e) (Getenv W k') (Loc c []) st1 He)
    as (err & st2 & Hread & Hst2).
  pose proof (lookup_lt_Some _ _ _ Hd0) as Hl.
  assert (Hkeep : cells st2 !! cell l = cells st1 !! cell l).
  { destruct Hst2 as [->|[v ->]]; [reflexivity|].
    unfold store. cbn [cells cell]. apply list_lookup_alter_ne. lia. }
  rewrite Hread.
  destruct (pointee e); try discriminate He; cbn [app readKeyLoop];
    (exists st2; split; [reflexivity|now rewrite Hkeep]).
Qed.

Lemma env_pointer_is_always_allocated_witness :
  exists st',
    EnvSource_ReadKey 2 (Ex.world ∅) Ex.serverDecls
      (mkEnvSource UpperSnakeCaseNormalizer) "debug"
      (Pointer (mkPtr (Loc 0 []) (TPtr TBool) false)) Ex.oneCell
    = Some (Returns None st')
    /\ cells st' !! 0 = Some (dset [] (DPtr (Loc (length (cells Ex.oneCell)) [])) DZero).
Proof.
  apply (env_pointer_is_always_allocated 0 (Ex.world ∅) Ex.serverDecls
           (mkEnvSource UpperSnakeCaseNormalizer) "debug" "DEBUG"
           (Loc 0 []) TBool DZero Ex.oneCell); reflexivity.
Defined.

(** ** Booleans of the map decoder *)

(** X27.  What the map decoder takes for a boolean: a boolean as it is,
    a string through [parseBool], a float as [true] exactly when it is
    greater than zero.  An integer is none of these: the target keeps
    its value, and so it does for a string that is no boolean.  None of
    the cases is an error. *)
Theorem map_bool_sources :
  forall (W : World) (D : Decls) (s : MapSource) (p : Ptr) (st : Store),
    elemType p = TBool ->
    readOnly p = false ->
    (forall b, readMapPrimitive W D s (VBool b) p st
               = Some (Returns None (store (addr p) (DBool b) st)))
    /\ (forall str,
          readMapPrimitive W D s (VString str) p st
          = Some (Returns None
                    match parseBool str with
                    | Ok b => store (addr p) (DBool b) st
                    | _ => st
                    end))
    /\ (forall f,
          readMapPrimitive W D s (VFloat f) p st
          = Some (Returns None
                    (store (addr p) (DBool (SFltb (S754_zero false) f)) st)))
    /\ (forall z, readMapPrimitive W D s (VInt z) p st = Some (Returns None st)).
Proof.
  intros W D s p st Hty Hro.
  assert (Hu : unwrapTarget p st = Some (p, st))
    by (apply unwrapTarget_plain; rewrite Hty; discriminate).
  repeat apply conj; intros x; unfold readMapPrimitive; cbn [weight];
    rewrite readMapPrimitiveLoop_cons; unfold mapStep;
    cbn [source target callback]; rewrite Hu, Hty; cbn [convert];
    unfold assign; rewrite ?Hro; cbn [complete]; try reflexivity.
  destruct (parseBool x); rewrite ?Hro; reflexivity.
Qed.

Lemma map_bool_sources_witness :
  readMapPrimitive (Ex.world ∅) Ex.serverDecls Ex.mapSource (VInt 1)
    (Ex.ptrTo TBool) Ex.oneCell
  = Some (Returns None Ex.oneCell).
Proof.
  apply (map_bool_sources (Ex.world ∅) Ex.serverDecls Ex.mapSource
           (Ex.ptrTo TBool) Ex.oneCell eq_refl eq_refl).
Defined.

(** ** The scenarios of the documentation *)

(** The tree [{"database": {"host": "127.0.0.1", "port": 3306}}] under
    the camel convention, read at [database] into a
    [struct { Host string; Port int }]. *)
Example scenario_database :
  let D : Decls :=
    <["Database" := mkStruct [mkField "Host" EmptyString false TString;
                              mkField "Port" EmptyString false TInt] None]> ∅ in
  MapSource_ReadKey (Ex.world ∅) D
    (Ex.jsonSource [("database", VMap [("host", VString "127.0.0.1");
                                       ("port", VInt 3306)])])
    "database" (Pointer (Ex.ptrTo (TStruct "Database"))) Ex.oneCell
  = Some (Returns None
            (mkStore [DStruct [DString "127.0.0.1"; DInt 3306]] [] [])).
Proof. vm_compute. reflexivity. Qed.

(** A boolean of the environment: [on] is true, [maybe] leaves the
    zero value and the decode succeeds. *)
Example scenario_boolean :
  let s := Ex.envSource UpperSnakeCaseNormalizer in
  EnvSource_ReadKey 2 (Ex.world {["DEBUG" := "on"]}) ∅ s "debug"
    (Pointer (Ex.ptrTo TBool)) Ex.oneCell
  = Some (Returns None (mkStore [DBool true] [] []))
  /\ EnvSource_ReadKey 2 (Ex.world {["DEBUG" := "maybe"]}) ∅ s "debug"
       (Pointer (Ex.ptrTo TBool)) Ex.oneCell
     = Some (Returns None Ex.oneCell).
Proof. split; vm_compute; reflexivity. Qed.

(** A mapping of the tree read into a [map[string]string]: both
    entries are committed. *)
Example scenario_mapping :
  readMapPrimitive (Ex.world ∅) ∅ Ex.mapSource
    (VMap [("a", VString "x"); ("b", VString "y")])
    (Ex.ptrTo (TMap TString TString)) Ex.oneCell
  = Some (Returns None
            (mkStore [DMap 0; DString "a"; DString "x"; DString "b"; DString "y"]
               [[(DString "b", DString "y"); (DString "a", DString "x")]]
               [true; true])).
Proof. vm_compute. reflexivity. Qed.

(** The variable [OAUTH2] holding a JSON array of one object, read into
    a [[]Provider]: one element, with both fields set. *)
Example scenario_oauth2 :
  EnvSource_ReadKey 2
    (Ex.jsonWorld {["OAUTH2" := Ex.providersText]} Ex.providersText Ex.providersTree)
    Ex.providerDecls (Ex.envSource UpperSnakeCaseNormalizer) "oauth2"
    (Pointer (Ex.ptrTo (TSlice (TStruct "Provider")))) Ex.oneCell
  = Some (Returns None
            (mkStore [DSlice 1 1; DArray [DStruct [DString "discord"; DString "s"]]]
               [] [])).
Proof. vm_compute. reflexivity. Qed.

(** The key [confusing.welcomeMessage] of README.md under the three
    conventions. *)
Example scenario_keys :
  Normalize UpperSnakeCaseNormalizer "confusing.welcomeMessage"
  = Some "CONFUSING_WELCOME_MESSAGE"
  /\ Normalize SnakeCaseNormalizer "confusing.welcomeMessage"
     = Some "confusing.welcome_message"
  /\ Normalize CamelCaseNormalizer "Confusing.WelcomeMessage"
     = Some "confusing.welcomeMessage".
Proof. repeat split. Qed.
